(** * Tuneminal: playback controller, lyric timeline and karaoke scoring

  A shallow embedding of the Go sources of the terminal karaoke player,
  together with the properties that its specification states about them:
  - package [player], the Oto-based [AudioPlayer] with its volume
    ([src/unnamed/part_007]) and the LRC helpers ([src/unnamed/part_006]);
  - package [main], the karaoke state of [App] ([src/unnamed/part_010]).

  Conventions.
  - Go [int], [int64] and [time.Duration] are 64-bit two's complement
    integers; they are modelled in [Z] and the results of their arithmetic
    go through [wrap64].  Loop counters and slice indices, which are
    bounded by the length of a slice, are left as they are.  A
    [time.Duration] counts nanoseconds.
  - Go [float64] is modelled by the primitive binary64 floats, so that the
    definitions evaluate exactly as the program does.
  - A slice is a list; an indexed store outside the slice panics in Go and
    is modelled by [None] / [Panicked].
  - Every public method of [AudioPlayer] holds the player's mutex for its
    whole body, so a method is one atomic state transformer. *)

From Stdlib Require Import ZArith Uint63 Floats Bool String Ascii.
From stdpp Require Import base tactics option list numbers.

Local Open Scope Z_scope.

(** ** Machine integers *)

Module GoInt.

(** Two's complement wrap-around on [w] bits. *)
Definition wrap (w : Z) (x : Z) : Z :=
  (x + 2 ^ (w - 1)) mod 2 ^ w - 2 ^ (w - 1).

Definition wrap64 : Z -> Z := wrap 64.
Definition wrap16 : Z -> Z := wrap 16.

Definition maxInt64 : Z := 2 ^ 63 - 1.
Definition minInt64 : Z := - 2 ^ 63.

Definition inInt64 (x : Z) : Prop := minInt64 <= x <= maxInt64.

(** Constants of package [time], in nanoseconds. *)
Definition Millisecond : Z := 1000000.
Definition Second : Z := 1000 * Millisecond.
Definition Minute : Z := 60 * Second.

(** [byte(x)] for a signed integer [x]: its low eight bits. *)
Definition byte_of (x : Z) : Z := Z.land x 255.

(** Go's [/] and [%] on integers truncate toward zero. *)
Definition idiv (a b : Z) : Z := wrap64 (Z.quot a b).
Definition imod (a b : Z) : Z := Z.rem a b.

End GoInt.

Import GoInt.

(** ** Floating point conversions *)

Module GoFloat.

(** The integer part of a finite float, rounded toward zero.  Go leaves the
    conversion of a NaN or an infinity to an integer to the implementation;
    the targets the program is built for give the low bits of [minInt64],
    that is 0 once narrowed to 16 bits, and no property below depends on
    that case. *)
Definition trunc (f : float) : Z :=
  match Prim2SF f with
  | S754_finite s m e =>
      let mag := if 0 <=? e then Z.shiftl (Z.pos m) e
                 else Z.shiftr (Z.pos m) (- e) in
      if s then - mag else mag
  | _ => 0
  end.

(** [int(f)] and [int16(f)]. *)
Definition int_of_float (f : float) : Z := wrap64 (trunc f).
Definition int16_of_float (f : float) : Z := wrap16 (trunc f).

(** [float64(n)] for an [int] of magnitude below 2^63. *)
Definition float_of_int (n : Z) : float :=
  if n <? 0 then PrimFloat.opp (PrimFloat.of_uint63 (Uint63.of_Z (- n)))
  else PrimFloat.of_uint63 (Uint63.of_Z n).

(** [func (d Duration) Seconds() float64] of package [time]. *)
Definition Seconds (d : Z) : float :=
  let sec := idiv d Second in
  let nsec := imod d Second in
  PrimFloat.add (float_of_int sec)
                (PrimFloat.div (float_of_int nsec) 1e9%float).

(** [func (d Duration) Milliseconds() int64]. *)
Definition Milliseconds (d : Z) : Z := idiv d Millisecond.

End GoFloat.

Import GoFloat.

(** ** Package [player]: LRC helpers *)

Module Lyrics.

(** [type LyricEntry struct { Time time.Duration; Text string }] *)
Record LyricEntry := mkEntry { Time : Z; Text : string }.

Inductive error :=
| ErrNoLyrics
| ErrNotChronological (position : Z).

(** The [for i := 1; i < len(lyrics); i++] loop of [ValidateLyrics]:
    [prev] is [lyrics[i-1]] and [rest] is [lyrics[i:]]. *)
Fixpoint validateLoop (i : Z) (prev : LyricEntry) (rest : list LyricEntry)
  : option error :=
  match rest with
  | [] => None
  | cur :: rest' =>
      if Time cur <? Time prev then Some (ErrNotChronological i)
      else validateLoop (i + 1) cur rest'
  end.

(** [ValidateLyrics]: [None] is the [nil] error. *)
Definition ValidateLyrics (lyrics : list LyricEntry) : option error :=
  match lyrics with
  | [] => Some ErrNoLyrics
  | first :: rest => validateLoop 1 first rest
  end.

(** The [for i := range lyrics] loop of [FindLyricAtTime]; the pointer
    [&lyrics[i]] is represented by the index [i]. *)
Fixpoint findLoop (lyrics : list LyricEntry) (targetTime : Z)
    (i : nat) (current : option nat) : option nat :=
  match lyrics with
  | [] => current
  | e :: rest =>
      if Time e <=? targetTime then findLoop rest targetTime (S i) (Some i)
      else current
  end.

Definition FindLyricIndexAtTime (lyrics : list LyricEntry) (targetTime : Z)
  : option nat :=
  findLoop lyrics targetTime 0%nat None.

(** [FindLyricAtTime]: the entry pointed to, [None] for the [nil] pointer. *)
Definition FindLyricAtTime (lyrics : list LyricEntry) (targetTime : Z)
  : option LyricEntry :=
  i ← FindLyricIndexAtTime lyrics targetTime; lyrics !! i.

(** Timestamps never decrease from one entry to the next. *)
Fixpoint chronological (lyrics : list LyricEntry) : Prop :=
  match lyrics with
  | [] => True
  | e :: rest =>
      match rest with
      | [] => True
      | e' :: _ => Time e <= Time e'
      end /\ chronological rest
  end.

(** Some entry is earlier than its immediate predecessor. *)
Definition has_descent (lyrics : list LyricEntry) : Prop :=
  exists (i : nat) (a b : LyricEntry),
    lyrics !! i = Some a /\ lyrics !! S i = Some b /\ Time b < Time a.

End Lyrics.

(** ** Package [player]: the Oto-based audio player *)

Module Player.

Inductive error :=
| ErrFileNotFound (filename : string)
| ErrOpenFailed
| ErrDecodeMP3
| ErrDecodeWAV
| ErrUnsupportedFormat (ext : string)
| ErrInitAudio
| ErrNoAudioLoaded
| ErrContextNotInitialized
| ErrSeekUnavailable.

(** How a method call ends: it returns [nil], returns an error, or panics. *)
Inductive outcome :=
| Done
| Failed (e : error)
| Panicked.

(** What the program observes of an [oto.Context]: the format it was
    created for. *)
Record OtoContext := mkContext { ctxSampleRate : Z; ctxChannelCount : Z }.

(** An [oto.Player] over a [bytes.Reader] on the audio data: the reader's
    offset when the player was created, and whether the device is fed. *)
Record OtoPlayer := mkPlayer { readerOffset : Z; feeding : bool }.

(** [type AudioPlayer struct]; the mutex is implicit, and of the channel
    [playbackDone] only whether it has been closed is kept. *)
Record AudioPlayer := mkAudioPlayer {
  otoContext : option OtoContext;
  player : option OtoPlayer;
  isLoaded : bool;
  isPlaying : bool;
  isPaused : bool;
  currentFile : string;
  audioData : list Z;
  sampleRate : Z;
  channels : Z;
  duration : Z;
  position : Z;
  playbackDoneClosed : bool;
  volume : float
}.

Definition NewAudioPlayer : AudioPlayer :=
  {| otoContext := None; player := None;
     isLoaded := false; isPlaying := false; isPaused := false;
     currentFile := EmptyString; audioData := [];
     sampleRate := 44100; channels := 2;
     duration := 0; position := 0;
     playbackDoneClosed := false; volume := 1%float |}.

(** [beep.Format] and a decoded stream: the frames that the streamer
    yields, each a pair of left and right samples. *)
Record Format := mkFormat { SampleRate : Z; NumChannels : Z }.
Record Decoded := mkDecoded { frames : list (float * float); format : Format }.

(** The collaborators of [LoadFile]: the file system, the two decoders and
    the audio device. *)
Record Env := mkEnv {
  statNotExist : string -> bool;
  openFile : string -> option (list Z);
  mp3Decode : list Z -> option Decoded;
  wavDecode : list Z -> option Decoded;
  otoNewContext : Z -> Z -> option OtoContext
}.

(** *** Field updates *)

Definition withSession (pl : option OtoPlayer) (playing paused : bool)
    (pos : Z) (p : AudioPlayer) : AudioPlayer :=
  {| otoContext := otoContext p; player := pl;
     isLoaded := isLoaded p; isPlaying := playing; isPaused := paused;
     currentFile := currentFile p; audioData := audioData p;
     sampleRate := sampleRate p; channels := channels p;
     duration := duration p; position := pos;
     playbackDoneClosed := playbackDoneClosed p; volume := volume p |}.

Definition withFormat (rate chans : Z) (p : AudioPlayer) : AudioPlayer :=
  {| otoContext := otoContext p; player := player p;
     isLoaded := isLoaded p; isPlaying := isPlaying p; isPaused := isPaused p;
     currentFile := currentFile p; audioData := audioData p;
     sampleRate := rate; channels := chans;
     duration := duration p; position := position p;
     playbackDoneClosed := playbackDoneClosed p; volume := volume p |}.

Definition withContext (ctx : option OtoContext) (p : AudioPlayer)
  : AudioPlayer :=
  {| otoContext := ctx; player := player p;
     isLoaded := isLoaded p; isPlaying := isPlaying p; isPaused := isPaused p;
     currentFile := currentFile p; audioData := audioData p;
     sampleRate := sampleRate p; channels := channels p;
     duration := duration p; position := position p;
     playbackDoneClosed := playbackDoneClosed p; volume := volume p |}.

Definition withTrack (data : list Z) (dur : Z) (file : string)
    (p : AudioPlayer) : AudioPlayer :=
  {| otoContext := otoContext p; player := player p;
     isLoaded := true; isPlaying := isPlaying p; isPaused := isPaused p;
     currentFile := file; audioData := data;
     sampleRate := sampleRate p; channels := channels p;
     duration := dur; position := 0;
     playbackDoneClosed := playbackDoneClosed p; volume := volume p |}.

Definition withDone (closed : bool) (p : AudioPlayer) : AudioPlayer :=
  {| otoContext := otoContext p; player := player p;
     isLoaded := isLoaded p; isPlaying := isPlaying p; isPaused := isPaused p;
     currentFile := currentFile p; audioData := audioData p;
     sampleRate := sampleRate p; channels := channels p;
     duration := duration p; position := position p;
     playbackDoneClosed := closed; volume := volume p |}.

Definition withVolume (v : float) (p : AudioPlayer) : AudioPlayer :=
  {| otoContext := otoContext p; player := player p;
     isLoaded := isLoaded p; isPlaying := isPlaying p; isPaused := isPaused p;
     currentFile := currentFile p; audioData := audioData p;
     sampleRate := sampleRate p; channels := channels p;
     duration := duration p; position := position p;
     playbackDoneClosed := playbackDoneClosed p; volume := v |}.

(** *** Collaborators *)

(** [streamer.Stream(sampleBuffer)] on a buffer of 512 frames: the frames
    copied, whether any were, and the streamer afterwards.  A decoder may
    hand out fewer frames per call; the frames collected by the loop of
    [convertToRawPCM] are the same. *)
Definition Stream (s : list (float * float))
  : list (float * float) * bool * list (float * float) :=
  match s with
  | [] => ([], false, [])
  | _ => (take 512 s, true, drop 512 s)
  end.

(** [filepath.Ext] with [/] as the path separator. *)
Fixpoint hasSeparator (s : string) : bool :=
  match s with
  | EmptyString => false
  | String c rest => Ascii.eqb c "/" || hasSeparator rest
  end.

Fixpoint Ext (path : string) : string :=
  match path with
  | EmptyString => EmptyString
  | String c rest =>
      match Ext rest with
      | EmptyString =>
          if Ascii.eqb c "." && negb (hasSeparator rest) then path
          else EmptyString
      | e => e
      end
  end.

(** [strings.ToLower] on the ASCII letters. *)
Definition lowerAscii (c : ascii) : ascii :=
  let n := nat_of_ascii c in
  if ((65 <=? n) && (n <=? 90))%nat then ascii_of_nat (n + 32) else c.

Fixpoint ToLower (s : string) : string :=
  match s with
  | EmptyString => EmptyString
  | String c rest => String (lowerAscii c) (ToLower rest)
  end.

(** *** Sample buffer *)

(** The read loop of [convertToRawPCM]; it stops at the first call of
    [Stream] that reports a drained streamer. *)
Fixpoint readSamples (fuel : nat) (streamer samples : list (float * float))
  : option (list (float * float)) :=
  match fuel with
  | O => None
  | S fuel' =>
      let '(chunk, ok, streamer') := Stream streamer in
      if ok then readSamples fuel' streamer' (samples ++ chunk)
      else Some samples
  end.

(** [make([]byte, n)] panics on a negative length. *)
Definition makeBytes (n : Z) : option (list Z) :=
  if n <? 0 then None else Some (replicate (Z.to_nat n) 0).

(** [pcmData[i] = b], which panics when [i] is out of range. *)
Definition store (pcmData : list Z) (i : Z) (b : Z) : option (list Z) :=
  if (0 <=? i) && (i <? Z.of_nat (length pcmData))
  then Some (<[Z.to_nat i := b]> pcmData)
  else None.

(** The clamp of [convertToRawPCM]:
    [if x > 1.0 { x = 1.0 } else if x < -1.0 { x = -1.0 }]. *)
Definition clampUnit (x : float) : float :=
  if PrimFloat.ltb 1%float x then 1%float
  else if PrimFloat.ltb x (-1)%float then (-1)%float
  else x.

(** The body of [for i, sample := range samples]. *)
Definition convertFrame (vol : float) (chans : Z) (i : Z)
    (sample : float * float) (pcmData : list Z) : option (list Z) :=
  let left := clampUnit (PrimFloat.mul (fst sample) vol) in
  let right := clampUnit (PrimFloat.mul (snd sample) vol) in
  let leftInt := int16_of_float (PrimFloat.mul left 32767%float) in
  pcmData ← store pcmData (i * 4) (byte_of leftInt);
  pcmData ← store pcmData (i * 4 + 1) (byte_of (Z.shiftr leftInt 8));
  let rightInt := int16_of_float (PrimFloat.mul right 32767%float) in
  if chans >? 1 then
    pcmData ← store pcmData (i * 4 + 2) (byte_of rightInt);
    store pcmData (i * 4 + 3) (byte_of (Z.shiftr rightInt 8))
  else Some pcmData.

Fixpoint convertLoop (vol : float) (chans : Z) (i : Z)
    (samples : list (float * float)) (pcmData : list Z) : option (list Z) :=
  match samples with
  | [] => Some pcmData
  | sample :: rest =>
      pcmData ← convertFrame vol chans i sample pcmData;
      convertLoop vol chans (i + 1) rest pcmData
  end.

(** [convertToRawPCM]; [None] is a panic.  The method never returns an
    error. *)
Definition convertToRawPCM (p : AudioPlayer) (streamer : list (float * float))
  : option (list Z) :=
  samples ← readSamples (S (length streamer)) streamer [];
  pcmData ← makeBytes (wrap64 (Z.of_nat (length samples) * 2 * channels p));
  convertLoop (volume p) (channels p) 0 samples pcmData.

(** *** Playback control *)

(** [stopInternal]: close the session and reset the playback state. *)
Definition stopInternal (p : AudioPlayer) : AudioPlayer :=
  withSession None false false 0 p.

Definition Stop (p : AudioPlayer) : AudioPlayer := stopInternal p.

(** [initializeOto]: an existing context is kept as it is. *)
Definition initializeOto (env : Env) (p : AudioPlayer)
  : AudioPlayer * option error :=
  match otoContext p with
  | Some _ => (p, None)
  | None =>
      match otoNewContext env (sampleRate p) (channels p) with
      | None => (p, Some ErrInitAudio)
      | Some ctx => (withContext (Some ctx) p, None)
      end
  end.

(** The [switch ext] of [LoadFile]. *)
Definition decode (env : Env) (ext : string) (file : list Z)
  : error + Decoded :=
  if String.eqb ext ".mp3" then
    match mp3Decode env file with
    | None => inl ErrDecodeMP3
    | Some d => inr d
    end
  else if String.eqb ext ".wav" then
    match wavDecode env file with
    | None => inl ErrDecodeWAV
    | Some d => inr d
    end
  else inl (ErrUnsupportedFormat ext).

(** [LoadFile]: playback is stopped first; then the file is probed,
    opened and decoded, the format is stored, the context is initialized,
    the buffer is built and the duration computed.  The division panics
    when sample rate times channels is 0. *)
Definition LoadFile (env : Env) (filename : string) (p : AudioPlayer)
  : AudioPlayer * outcome :=
  let p := stopInternal p in
  if statNotExist env filename then (p, Failed (ErrFileNotFound filename))
  else
    match openFile env filename with
    | None => (p, Failed ErrOpenFailed)
    | Some file =>
        match decode env (ToLower (Ext filename)) file with
        | inl e => (p, Failed e)
        | inr d =>
            let p := withFormat (SampleRate (format d))
                                (NumChannels (format d)) p in
            match initializeOto env p with
            | (p, Some e) => (p, Failed e)
            | (p, None) =>
                match convertToRawPCM p (frames d) with
                | None => (p, Panicked)
                | Some data =>
                    let samplesPerSecond :=
                      wrap64 (sampleRate p * channels p) in
                    let totalSamples :=
                      idiv (Z.of_nat (length data)) 2 in
                    if samplesPerSecond =? 0 then (p, Panicked)
                    else
                      let dur :=
                        wrap64 (idiv totalSamples samplesPerSecond * Second) in
                      (withTrack data dur filename p, Done)
                end
            end
        end
    end.

(** [Play]; the tracker that it starts in the background is [trackTick]
    below. *)
Definition Play (p : AudioPlayer) : AudioPlayer * outcome :=
  if negb (isLoaded p) || (Z.of_nat (length (audioData p)) =? 0)
  then (p, Failed ErrNoAudioLoaded)
  else
    match otoContext p with
    | None => (p, Failed ErrContextNotInitialized)
    | Some _ =>
        let p := stopInternal p in
        let p := withSession (Some (mkPlayer 0 true)) true false 0 p in
        (withDone false p, Done)
    end.

(** One tick of [trackPosition], [elapsed] being [time.Since(startTime)].
    Closing a channel that is closed already panics. *)
Definition trackTick (elapsed : Z) (p : AudioPlayer) : AudioPlayer * outcome :=
  if negb (isPlaying p) || isPaused p then (p, Done)
  else
    let p := withSession (player p) (isPlaying p) (isPaused p) elapsed p in
    if position p >=? duration p then
      let p := withSession (player p) false false (duration p) p in
      if playbackDoneClosed p then (p, Panicked)
      else (withDone true p, Done)
    else (p, Done).

(** [Pause] and [Resume] act only on an open session; [Resume] starts no
    tracker ("position tracking should be handled by the calling
    application"). *)
Definition Pause (p : AudioPlayer) : AudioPlayer :=
  match player p with
  | Some pl =>
      if isPlaying p
      then withSession (Some (mkPlayer (readerOffset pl) false))
                       false true (position p) p
      else p
  | None => p
  end.

Definition Resume (p : AudioPlayer) : AudioPlayer :=
  match player p with
  | Some pl =>
      if isPaused p
      then withSession (Some (mkPlayer (readerOffset pl) true))
                       true false (position p) p
      else p
  | None => p
  end.

Definition IsPlaying (p : AudioPlayer) : bool :=
  isPlaying p && negb (isPaused p).

Definition GetPosition (p : AudioPlayer) : Z := position p.
Definition GetDuration (p : AudioPlayer) : Z := duration p.

Definition SetVolume (v : float) (p : AudioPlayer) : AudioPlayer :=
  let v := if PrimFloat.ltb v 0%float then 0%float
           else if PrimFloat.ltb 1%float v then 1%float
           else v in
  withVolume v p.

(** [bytes.Reader.Seek(offset, 0)]: a negative offset is refused and the
    reader stays at its start; [SeekTo] ignores the error. *)
Definition readerSeek (offset : Z) : Z :=
  if offset <? 0 then 0 else offset.

(** [SeekTo]: the guard, the clamp, the byte offset of the new reader,
    and the session reopened in the disposition it had.  A nil context
    behind an open session would panic in [NewPlayer]. *)
Definition SeekTo (pos : Z) (p : AudioPlayer) : AudioPlayer * outcome :=
  match isLoaded p, player p with
  | true, Some _ =>
      let pos := if pos <? 0 then 0
                 else if pos >? duration p then duration p
                 else pos in
      let samplesPerSecond := wrap64 (sampleRate p * channels p) in
      let targetSamples :=
        wrap64 (int_of_float (Seconds pos) * samplesPerSecond) in
      let wasPlaying := isPlaying p in
      let p := stopInternal p in
      match otoContext p with
      | None => (p, Panicked)
      | Some _ =>
          let sampleSize := wrap64 (2 * channels p) in
          let bytesToSkip := wrap64 (targetSamples * sampleSize) in
          let session := mkPlayer (readerSeek bytesToSkip) false in
          let p := withSession (Some session) false false pos p in
          if wasPlaying
          then (withSession (Some (mkPlayer (readerOffset session) true))
                            true false pos p, Done)
          else (p, Done)
      end
  | _, _ => (p, Failed ErrSeekUnavailable)
  end.

Definition Close (p : AudioPlayer) : AudioPlayer := Stop p.

End Player.

(** ** Package [main]: the karaoke application *)

Module App.

#[local] Set Warnings "-inexact-float".

(** [type Song struct] *)
Record Song := mkSong {
  Title : string;
  Artist : string;
  Path : string;
  LyricsPath : string;
  Duration : Z
}.

(** [type LyricLine struct] *)
Record LyricLine := mkLine {
  Time : Z;
  Text : string;
  Index : Z;
  IsActive : bool;
  IsHit : bool
}.

(** Of [type App struct], the fields that playback and scoring read or
    write; the widgets and the display-only state are left out.  The field
    [player] is a pointer to the one [AudioPlayer] of the application. *)
Record App := mkApp {
  player : option Player.AudioPlayer;
  songs : list Song;
  currentSong : Z;
  isPlaying : bool;
  isPaused : bool;
  position : Z;
  duration : Z;
  isLoading : bool;
  lyricLines : list LyricLine;
  karaokeScore : Z;
  streak : Z;
  accuracy : float;
  totalLyrics : Z;
  hitLyrics : Z;
  beatPhase : Z;
  volume : float
}.

(** The collaborators of [play]: those of the player, and the LRC file
    reader.  [readLRC path] is [None] when the file cannot be opened, and
    otherwise the time and text of every line that carries a
    [[mm:ss.xx]] tag, in file order. *)
Record Env := mkEnv {
  playerEnv : Player.Env;
  readLRC : string -> option (list (Z * string))
}.

(** *** Field updates *)

Definition withPlayer (pl : option Player.AudioPlayer) (a : App) : App :=
  {| player := pl; songs := songs a; currentSong := currentSong a;
     isPlaying := isPlaying a; isPaused := isPaused a;
     position := position a; duration := duration a;
     isLoading := isLoading a; lyricLines := lyricLines a;
     karaokeScore := karaokeScore a; streak := streak a;
     accuracy := accuracy a; totalLyrics := totalLyrics a;
     hitLyrics := hitLyrics a; beatPhase := beatPhase a;
     volume := volume a |}.

Definition withPlayback (playing paused : bool) (pos dur : Z) (loading : bool)
    (a : App) : App :=
  {| player := player a; songs := songs a; currentSong := currentSong a;
     isPlaying := playing; isPaused := paused;
     position := pos; duration := dur;
     isLoading := loading; lyricLines := lyricLines a;
     karaokeScore := karaokeScore a; streak := streak a;
     accuracy := accuracy a; totalLyrics := totalLyrics a;
     hitLyrics := hitLyrics a; beatPhase := beatPhase a;
     volume := volume a |}.

Definition withLines (lines : list LyricLine) (a : App) : App :=
  {| player := player a; songs := songs a; currentSong := currentSong a;
     isPlaying := isPlaying a; isPaused := isPaused a;
     position := position a; duration := duration a;
     isLoading := isLoading a; lyricLines := lines;
     karaokeScore := karaokeScore a; streak := streak a;
     accuracy := accuracy a; totalLyrics := totalLyrics a;
     hitLyrics := hitLyrics a; beatPhase := beatPhase a;
     volume := volume a |}.

Definition withScore (score strk : Z) (acc : float) (total hits : Z)
    (a : App) : App :=
  {| player := player a; songs := songs a; currentSong := currentSong a;
     isPlaying := isPlaying a; isPaused := isPaused a;
     position := position a; duration := duration a;
     isLoading := isLoading a; lyricLines := lyricLines a;
     karaokeScore := score; streak := strk;
     accuracy := acc; totalLyrics := total;
     hitLyrics := hits; beatPhase := beatPhase a;
     volume := volume a |}.

Definition withBeatPhase (phase : Z) (a : App) : App :=
  {| player := player a; songs := songs a; currentSong := currentSong a;
     isPlaying := isPlaying a; isPaused := isPaused a;
     position := position a; duration := duration a;
     isLoading := isLoading a; lyricLines := lyricLines a;
     karaokeScore := karaokeScore a; streak := streak a;
     accuracy := accuracy a; totalLyrics := totalLyrics a;
     hitLyrics := hitLyrics a; beatPhase := phase;
     volume := volume a |}.

Definition withSongs (library : list Song) (current : Z) (a : App) : App :=
  {| player := player a; songs := library; currentSong := current;
     isPlaying := isPlaying a; isPaused := isPaused a;
     position := position a; duration := duration a;
     isLoading := isLoading a; lyricLines := lyricLines a;
     karaokeScore := karaokeScore a; streak := streak a;
     accuracy := accuracy a; totalLyrics := totalLyrics a;
     hitLyrics := hitLyrics a; beatPhase := beatPhase a;
     volume := volume a |}.

Definition len {A} (l : list A) : Z := Z.of_nat (length l).

(** The state built by [NewApp], before the song library is scanned;
    [defaultVolume] comes from the configuration. *)
Definition NewApp (defaultVolume : float) : App :=
  {| player := Some Player.NewAudioPlayer; songs := []; currentSong := -1;
     isPlaying := false; isPaused := false; position := 0; duration := 0;
     isLoading := false; lyricLines := [];
     karaokeScore := 0; streak := 0; accuracy := 0%float;
     totalLyrics := 0; hitLyrics := 0; beatPhase := 0;
     volume := defaultVolume |}.

(** *** Lyrics *)

Definition demoLine (seconds : Z) (text : string) (index : Z) : LyricLine :=
  mkLine (wrap64 (seconds * Second)) text index false false.

Definition demoLyrics : list LyricLine :=
  [ demoLine 0 "Welcome to Tuneminal Karaoke!" 0;
    demoLine 2 "" 1;
    demoLine 3 "This is a demo song" 2;
    demoLine 5 "For the Tuneminal app" 3;
    demoLine 7 "Karaoke in your terminal" 4;
    demoLine 9 "It's really quite a snap" 5;
    demoLine 11 "" 6;
    demoLine 12 "Chorus" 7;
    demoLine 14 "Sing along with me" 8;
    demoLine 16 "In your terminal today" 9;
    demoLine 18 "Tuneminal makes it easy" 10;
    demoLine 20 "To karaoke the Go way" 11;
    demoLine 22 "" 12;
    demoLine 23 "Verse 2" 13;
    demoLine 25 "No need for fancy GUIs" 14;
    demoLine 27 "Just terminal and text" 15;
    demoLine 29 "Tuneminal brings the music" 16;
    demoLine 31 "To your command line next" 17;
    demoLine 33 "" 18;
    demoLine 34 "Thank you for using Tuneminal!" 19 ].

Definition loadDemoLyrics (a : App) : App := withLines demoLyrics a.

(** The lines appended by the scan loop of [loadLyricsFromFile]. *)
Fixpoint taggedLines (index : Z) (entries : list (Z * string))
  : list LyricLine :=
  match entries with
  | [] => []
  | (time, text) :: rest =>
      mkLine time text index false false :: taggedLines (index + 1) rest
  end.

Definition loadLyricsFromFile (env : Env) (filename : string) (a : App)
  : App :=
  match readLRC env filename with
  | None => loadDemoLyrics a
  | Some entries =>
      let a := withLines (taggedLines 0 entries) a in
      if len (lyricLines a) =? 0 then loadDemoLyrics a else a
  end.

(** The [for i, lyric := range a.lyricLines] loop of
    [findCurrentLyricIndex]. *)
Fixpoint findIndexLoop (lines : list LyricLine) (currentTime : Z)
    (i : Z) (activeIndex : Z) : Z :=
  match lines with
  | [] => activeIndex
  | lyric :: rest =>
      if currentTime >=? Time lyric
      then findIndexLoop rest currentTime (i + 1) i
      else activeIndex
  end.

Definition findCurrentLyricIndex (a : App) (currentTime : Z) : Z :=
  findIndexLoop (lyricLines a) currentTime 0 (-1).

(** *** Scoring *)

Definition setActive (l : LyricLine) : LyricLine :=
  mkLine (Time l) (Text l) (Index l) true (IsHit l).

Definition setHit (l : LyricLine) : LyricLine :=
  mkLine (Time l) (Text l) (Index l) (IsActive l) true.

Definition clearFlags (l : LyricLine) : LyricLine :=
  mkLine (Time l) (Text l) (Index l) false false.

Definition calculateHitChance (a : App) (lyricIndex : Z) : float :=
  let baseChance := 0.7%float in
  let streakBonus := PrimFloat.mul (float_of_int (streak a)) 0.05%float in
  let streakBonus :=
    if PrimFloat.ltb 0.2%float streakBonus then 0.2%float else streakBonus in
  let progressBonus :=
    PrimFloat.mul
      (PrimFloat.div (float_of_int lyricIndex)
                     (float_of_int (len (lyricLines a))))
      0.1%float in
  let beatBonus := if beatPhase a =? 0 then 0.1%float else 0%float in
  let totalChance :=
    PrimFloat.add
      (PrimFloat.add (PrimFloat.add baseChance streakBonus) progressBonus)
      beatBonus in
  if PrimFloat.ltb 0.95%float totalChance then 0.95%float else totalChance.

Definition hitLyric (a : App) (lyricIndex : Z) : App :=
  if (lyricIndex <? 0) || (lyricIndex >=? len (lyricLines a)) then a
  else
    match lyricLines a !! Z.to_nat lyricIndex with
    | None => a
    | Some lyric =>
        if IsHit lyric then a
        else
          let lines := <[Z.to_nat lyricIndex := setHit lyric]> (lyricLines a) in
          let hits := wrap64 (hitLyrics a + 1) in
          let basePoints := 100 in
          let streakMultiplier :=
            PrimFloat.add 1%float
              (PrimFloat.div (float_of_int (streak a)) 10%float) in
          let beatBonus := if beatPhase a =? 0 then 50 else 0 in
          let points :=
            wrap64 (int_of_float
                      (PrimFloat.mul (float_of_int basePoints)
                                     streakMultiplier)
                    + beatBonus) in
          let score := wrap64 (karaokeScore a + points) in
          let strk := wrap64 (streak a + 1) in
          let score :=
            if strk =? 5 then wrap64 (score + 500)
            else if strk =? 10 then wrap64 (score + 1000)
            else if imod strk 15 =? 0 then wrap64 (score + 2000)
            else score in
          withScore score strk (accuracy a) (totalLyrics a) hits
                    (withLines lines a)
    end.

(** [calculateAccuracy] fills in [totalLyrics] when it is still 0, and
    returns the accuracy. *)
Definition calculateAccuracy (a : App) : App * float :=
  let a :=
    if totalLyrics a =? 0
    then withScore (karaokeScore a) (streak a) (accuracy a)
                   (len (lyricLines a)) (hitLyrics a) a
    else a in
  if totalLyrics a =? 0 then (a, 0%float)
  else
    (a, PrimFloat.mul
          (PrimFloat.div (float_of_int (hitLyrics a))
                         (float_of_int (totalLyrics a)))
          100%float).

(** [updateKaraokeScoring]; [draw] is the value of [rand.Float64()] should
    the line reached be evaluated. *)
Definition updateKaraokeScoring (draw : float) (a : App) : App :=
  if len (lyricLines a) =? 0 then a
  else
    let currentTime := position a in
    let activeIndex := findCurrentLyricIndex a currentTime in
    let a :=
      if (activeIndex >=? 0) && (activeIndex <? len (lyricLines a)) then
        match lyricLines a !! Z.to_nat activeIndex with
        | None => a
        | Some lyric =>
            if negb (IsHit lyric) && negb (IsActive lyric) then
              let a :=
                withLines
                  (<[Z.to_nat activeIndex := setActive lyric]> (lyricLines a))
                  a in
              let hitChance := calculateHitChance a activeIndex in
              if PrimFloat.ltb draw hitChance then hitLyric a activeIndex
              else a
            else a
        end
      else a in
    let '(a, acc) := calculateAccuracy a in
    withScore (karaokeScore a) (streak a) acc (totalLyrics a) (hitLyrics a) a.

(** The scoring part of [updateScore]. *)
Definition updateScore (draw : float) (a : App) : App :=
  if isPlaying a then updateKaraokeScoring draw a else a.

(** The beat phase set by [generateVisualizerData], which [updateVisualizer]
    runs while playing. *)
Definition updateVisualizer (a : App) : App :=
  if isPlaying a then
    let timeMs := Milliseconds (position a) in
    withBeatPhase (imod (idiv timeMs 250) 4) a
  else a.

(** One redraw queued by [trackRealPlayback] for a song that plays on:
    [pos] is the position read from the player. *)
Definition scoringTick (pos : Z) (draw : float) (a : App) : App :=
  let a := withPlayback (isPlaying a) (isPaused a) pos (duration a)
                        (isLoading a) a in
  updateScore draw (updateVisualizer a).

(** *** Playback controls *)

Definition noLyricsLine : LyricLine :=
  mkLine (wrap64 (0 * Second)) "No lyrics available" 0 false false.

(** The reset of [play] under [if !a.isPaused]. *)
Definition resetKaraoke (a : App) : App :=
  let a := withScore 0 0 0%float (len (lyricLines a)) 0 a in
  withLines (map clearFlags (lyricLines a)) a.

(** The deferred [a.isLoading = false]. *)
Definition doneLoading (a : App) : App :=
  withPlayback (isPlaying a) (isPaused a) (position a) (duration a) false a.

(** The part of [play] that precedes the audio playback: the lyrics of the
    song are loaded, then the karaoke state is reset unless the
    application is paused. *)
Definition prepareKaraoke (env : Env) (song : Song) (a : App) : App :=
  let a :=
    if negb (String.eqb (LyricsPath song) EmptyString)
    then loadLyricsFromFile env (LyricsPath song) a
    else withLines [noLyricsLine] a in
  if negb (isPaused a) then resetKaraoke a else a.

(** The audio part of [play], for a player [pl]; an error of [SeekTo] is
    reported and playback starts from the beginning. *)
Definition startAudio (env : Env) (song : Song) (pl : Player.AudioPlayer)
    (a : App) : option App :=
  match Player.LoadFile (playerEnv env) (Path song) pl with
  | (_, Player.Panicked) => None
  | (pl, Player.Failed _) => Some (doneLoading (withPlayer (Some pl) a))
  | (pl, Player.Done) =>
      let pl := Player.SetVolume (volume a) pl in
      let sought :=
        if isPaused a && (position a >? 0)
        then Player.SeekTo (position a) pl
        else (pl, Player.Done) in
      match sought with
      | (_, Player.Panicked) => None
      | (pl, _) =>
          match Player.Play pl with
          | (_, Player.Panicked) => None
          | (pl, Player.Failed _) =>
              Some (doneLoading (withPlayer (Some pl) a))
          | (pl, Player.Done) =>
              Some (withPlayback true false (position a) (Duration song) false
                                 (withPlayer (Some pl) a))
          end
      end
  end.

(** [play]; [None] is a panic. *)
Definition play (env : Env) (a : App) : option App :=
  if (currentSong a <? 0) || (currentSong a >=? len (songs a)) then Some a
  else
    match songs a !! Z.to_nat (currentSong a) with
    | None => Some a
    | Some song =>
        let a := prepareKaraoke env song a in
        match player a with
        | None => Some (doneLoading a)
        | Some pl => startAudio env song pl a
        end
    end.

Definition pause (a : App) : App :=
  let a :=
    match player a with
    | Some pl => withPlayer (Some (Player.Pause pl)) a
    | None => a
    end in
  withPlayback false true (position a) (duration a) (isLoading a) a.

Definition togglePlayPause (env : Env) (a : App) : option App :=
  if isPlaying a && negb (isPaused a) then Some (pause a)
  else if currentSong a >=? 0 then play env a
  else Some a.

Definition stop (a : App) : App :=
  let a :=
    match player a with
    | Some pl => withPlayer (Some (Player.Stop pl)) a
    | None => a
    end in
  let a := withPlayback false false 0 (duration a) false a in
  let a := withScore 0 0 0%float 0 0 a in
  let a := withBeatPhase 0 a in
  withLines (map clearFlags (lyricLines a)) a.


(** The key handler that closes the help page: [a.player.Resume()]. *)
Definition closeHelp (wasPlaying : bool) (a : App) : App :=
  match player a with
  | Some pl =>
      if wasPlaying then withPlayer (Some (Player.Resume pl)) a else a
  | None => a
  end.

End App.

(** * Specification-side definitions *)

(** ** Lyric timeline: invariant and specified lookup *)

Module TimelineSpec.

Import App.

(** The invariant of a lyric timeline: timestamps never decrease from one
    line to the next. *)
Fixpoint ordered (lines : list LyricLine) : Prop :=
  match lines with
  | [] => True
  | l :: rest =>
      match rest with
      | [] => True
      | l' :: _ => Time l <= Time l'
      end /\ ordered rest
  end.

(** The lines at the start of the list that have begun at position [p]. *)
Fixpoint leadingRun (p : Z) (lines : list LyricLine) : list LyricLine :=
  match lines with
  | [] => []
  | l :: rest => if p >=? Time l then l :: leadingRun p rest else []
  end.

(** The active index in the words of the specification: the index of the
    last line whose timestamp is at most [p], and -1 when there is none. *)
Fixpoint lastStarted (lines : list LyricLine) (p : Z) (i : Z) (found : Z)
  : Z :=
  match lines with
  | [] => found
  | l :: rest =>
      lastStarted rest p (i + 1) (if Time l <=? p then i else found)
  end.

Definition ActiveIndex (lines : list LyricLine) (p : Z) : Z :=
  lastStarted lines p 0 (-1).

(** The [LyricEntry] of package [player] with the time and text of a
    line. *)
Definition entryOf (l : LyricLine) : Lyrics.LyricEntry :=
  Lyrics.mkEntry (Time l) (Text l).

(** The timeline of the specification's scenario. *)
Definition scenario : App -> App :=
  withLines [ mkLine 0 "A" 0 false false;
              mkLine (3 * Second) "B" 1 false false;
              mkLine (6 * Second) "" 2 false false ].

(** A timeline whose third line is earlier than its second, as
    [loadLyricsFromFile] builds it from an LRC file whose tags are in that
    order. *)
Definition unorderedEnv : Env :=
  {| playerEnv := Player.mkEnv (fun _ => true) (fun _ => None)
                               (fun _ => None) (fun _ => None)
                               (fun _ _ => None);
     readLRC := fun _ =>
       Some [(0, "A"%string); (5 * Second, "B"%string);
             (2 * Second, "C"%string)] |}.

Definition unordered : App :=
  loadLyricsFromFile unorderedEnv "song.lrc" (NewApp 1).

End TimelineSpec.

(** ** Playback controller: transitions and reachable states *)

Module ControllerSpec.

Import Player.

(** One atomic transition of the player: a public method that does not
    panic, or a tick of the position tracker, which takes the mutex
    between two methods. *)
Inductive step : AudioPlayer -> AudioPlayer -> Prop :=
| step_LoadFile env filename p p' o :
    LoadFile env filename p = (p', o) -> o <> Panicked -> step p p'
| step_Play p p' o :
    Play p = (p', o) -> o <> Panicked -> step p p'
| step_SeekTo t p p' o :
    SeekTo t p = (p', o) -> o <> Panicked -> step p p'
| step_tick elapsed p p' o :
    trackTick elapsed p = (p', o) -> o <> Panicked -> step p p'
| step_Pause p : step p (Pause p)
| step_Resume p : step p (Resume p)
| step_Stop p : step p (Stop p)
| step_SetVolume v p : step p (SetVolume v p).

(** The states of a player created by [NewAudioPlayer]. *)
Inductive reachable : AudioPlayer -> Prop :=
| reach_new : reachable NewAudioPlayer
| reach_step p p' : reachable p -> step p p' -> reachable p'.

(** A session is only ever opened on an initialized context, and the
    playing and paused flags are only set while a session is open. *)
Record consistent (p : AudioPlayer) : Prop := mkConsistent {
  session_context : player p <> None -> otoContext p <> None;
  playing_session : isPlaying p = true -> player p <> None;
  paused_session : isPaused p = true -> player p <> None;
  playing_not_paused : isPlaying p = true -> isPaused p = false
}.

(** An environment with one file, [song.wav]: eight stereo frames at 1 Hz,
    that is eight seconds of audio. *)
Definition demoFrames : list (float * float) :=
  [ (0.5, -0.25); (1.5, -1.5); (0, 1); (-1, 0.125);
    (0.25, 0.25); (-0.5, 0.75); (1, -1); (0, 0) ]%float.

(** Every context can be created, and no other file exists. *)
Definition demoEnv : Env :=
  {| statNotExist := fun f => negb (String.eqb f "song.wav");
     openFile := fun f => if String.eqb f "song.wav" then Some [] else None;
     mp3Decode := fun _ => None;
     wavDecode := fun _ => Some (mkDecoded demoFrames (mkFormat 1 2));
     otoNewContext := fun rate chans => Some (mkContext rate chans) |}.

(** The file is loaded and played, a tick of the tracker reads 5s, and the
    player is paused, or stopped. *)
Definition loaded : AudioPlayer :=
  fst (LoadFile demoEnv "song.wav" NewAudioPlayer).
Definition playing : AudioPlayer := fst (Play loaded).
Definition playingAt5s : AudioPlayer := fst (trackTick (5 * Second) playing).
Definition pausedAt5s : AudioPlayer := Pause playingAt5s.
Definition stopped : AudioPlayer := Stop playingAt5s.

End ControllerSpec.

(** ** Sample buffer: the specified build *)

Module BufferSpec.

Import Player.

(** The build in the words of the specification: per channel, the sample
    is scaled by the volume, the product is clamped to [-1, 1], the clamped
    value is quantized to a signed 16-bit integer, and the integer is
    stored low byte first; channels are interleaved in frame order. *)
Definition quantize (x : float) : Z :=
  int16_of_float (PrimFloat.mul x 32767%float).

Definition littleEndian16 (n : Z) : list Z :=
  [byte_of n; byte_of (Z.shiftr n 8)].

Definition channelBytes (vol : float) (sample : float) : list Z :=
  littleEndian16 (quantize (clampUnit (PrimFloat.mul sample vol))).

Definition frameChannels (chans : Z) (frame : float * float) : list float :=
  if chans =? 1 then [fst frame] else [fst frame; snd frame].

Definition Build (frames : list (float * float)) (chans : Z) (vol : float)
  : list Z :=
  flat_map (fun frame => flat_map (channelBytes vol) (frameChannels chans frame))
           frames.

(** The four bytes that the loop body writes for one frame. *)
Definition frameBytes (vol : float) (frame : float * float) : list Z :=
  channelBytes vol (fst frame) ++ channelBytes vol (snd frame).

(** The player as [LoadFile] has set it up for a mono file when it calls
    [convertToRawPCM]. *)
Definition mono : AudioPlayer := withFormat 44100 1 NewAudioPlayer.

(** An environment whose file [mono.wav] decodes to two mono frames. *)
Definition monoEnv : Env :=
  {| statNotExist := fun _ => false;
     openFile := fun _ => Some [];
     mp3Decode := fun _ => None;
     wavDecode := fun _ =>
       Some (mkDecoded [(0.5, 0.5); (0.25, 0.25)]%float (mkFormat 44100 1));
     otoNewContext := fun rate chans => Some (mkContext rate chans) |}.

End BufferSpec.

(** ** Karaoke session: counters and runs of ticks *)

Module SessionSpec.

Import App.


(** A karaoke session after a fresh start: no points, no streak, no hit,
    and no line flagged. *)
Definition fresh (a : App) : Prop :=
  karaokeScore a = 0 /\ streak a = 0 /\ accuracy a = 0%float /\
  hitLyrics a = 0 /\
  forall l, l ∈ lyricLines a -> IsHit l = false /\ IsActive l = false.


(** A run of scoring ticks, each with the position read from the player and
    the random draw. *)
Fixpoint session (ticks : list (Z * float)) (a : App) : App :=
  match ticks with
  | [] => a
  | (pos, draw) :: rest => session rest (scoringTick pos draw a)
  end.


(** Lines as they come out of the loaders carry no flag. *)
Definition unflagged (lines : list LyricLine) : Prop :=
  forall l, l ∈ lines -> IsHit l = false /\ IsActive l = false.

(** A library of one song, whose LRC file has one line, at 0s; its audio
    is [song.wav] of the controller's example. *)
Definition karaokeEnv : Env :=
  {| playerEnv := ControllerSpec.demoEnv;
     readLRC := fun _ => Some [(0, "la la la"%string)] |}.

Definition library : list Song :=
  [mkSong "Song" "Singer" "song.wav" "song.lrc" (8 * Second)].

(** The song is selected and started, its line is sung at 2s, the
    application is paused and resumed, and a tick follows. *)
Definition ready : App := withSongs library 0 (NewApp 1).
Definition started : App := default ready (play karaokeEnv ready).
Definition sung : App := scoringTick (2 * Second) 0 started.
Definition paused : App := pause sung.
Definition resumed : App := default paused (play karaokeEnv paused).
Definition sungAgain : App := scoringTick 0 0 resumed.

End SessionSpec.

(** ** Playback controller: further invariants *)

Module ControllerInvariants.

Import Player.

(** The device is fed while the player plays, and is not while it is
    paused. *)
Record fed (p : AudioPlayer) : Prop := mkFed {
  playing_fed :
    forall s, player p = Some s -> isPlaying p = true -> feeding s = true;
  paused_unfed :
    forall s, player p = Some s -> isPaused p = true -> feeding s = false
}.


(** The fields that describe the loaded track. *)
Definition sameTrack (p p' : AudioPlayer) : Prop :=
  isLoaded p' = isLoaded p /\ audioData p' = audioData p /\
  duration p' = duration p /\ currentFile p' = currentFile p /\
  sampleRate p' = sampleRate p /\ channels p' = channels p /\
  otoContext p' = otoContext p /\ volume p' = volume p.

(** An environment whose one file is in stereo at 2 Hz, another format
    than that of [ControllerSpec.demoEnv]. *)
Definition otherEnv : Env :=
  {| statNotExist := fun _ => false;
     openFile := fun _ => Some [];
     mp3Decode := fun _ => None;
     wavDecode := fun _ =>
       Some (mkDecoded ControllerSpec.demoFrames (mkFormat 2 2));
     otoNewContext := fun rate chans => Some (mkContext rate chans) |}.

End ControllerInvariants.

(** ** LRC entries: the entries that have begun *)

Module LyricsSpec.

Import Lyrics.

(** The entries at the start of the list whose time is at most [t]. *)
Fixpoint begun (t : Z) (lyrics : list LyricEntry) : list LyricEntry :=
  match lyrics with
  | [] => []
  | e :: rest => if Time e <=? t then e :: begun t rest else []
  end.

End LyricsSpec.

(** ** Package [main]: selection and seeking *)

Module AppControls.

Import App.

Definition withCurrentSong (current : Z) (a : App) : App :=
  withSongs (songs a) current a.

(** [next] and [previous]: the selection moves round the library, and the
    song selected is played. *)
Definition next (env : Env) (a : App) : option App :=
  if len (songs a) =? 0 then Some a
  else
    let current := imod (wrap64 (currentSong a + 1)) (len (songs a)) in
    play env (withCurrentSong current a).

Definition previous (env : Env) (a : App) : option App :=
  if len (songs a) =? 0 then Some a
  else
    let current :=
      imod (wrap64 (wrap64 (currentSong a - 1) + len (songs a)))
           (len (songs a)) in
    play env (withCurrentSong current a).

Definition navigateUp (a : App) : App :=
  if currentSong a >? 0 then withCurrentSong (wrap64 (currentSong a - 1)) a
  else a.

Definition navigateDown (a : App) : App :=
  if currentSong a <? wrap64 (len (songs a) - 1)
  then withCurrentSong (wrap64 (currentSong a + 1)) a
  else a.

(** The seek of [seekForward] and [seekBackward] once the new position is
    known: the position of the application follows only when the player
    accepts the seek, and [updateAllDisplays] then runs [updateScore], a
    scoring pass at the new position; [draw] is its random draw. *)
Definition seekPlayer (draw : float) (newPosition : Z) (a : App)
  : option App :=
  match player a with
  | Some pl =>
      match Player.SeekTo newPosition pl with
      | (_, Player.Panicked) => None
      | (pl, Player.Failed _) => Some (withPlayer (Some pl) a)
      | (pl, Player.Done) =>
          Some (updateScore draw
                  (withPlayback (isPlaying a) (isPaused a) newPosition
                                (duration a) (isLoading a)
                                (withPlayer (Some pl) a)))
      end
  | None => Some a
  end.

(** [seekForward] and [seekBackward]; [seekStep] is the step of the
    configuration, in seconds. *)
Definition seekForward (seekStep : Z) (draw : float) (a : App)
  : option App :=
  if (currentSong a >=? 0) && (currentSong a <? len (songs a))
     && isPlaying a
  then
    let step := wrap64 (seekStep * Second) in
    let newPosition := wrap64 (position a + step) in
    let newPosition :=
      if newPosition >? duration a then duration a else newPosition in
    seekPlayer draw newPosition a
  else Some a.


(** The bonus that [hitLyric] adds when the streak reaches [n]. *)
Definition milestoneBonus (n : Z) : Z :=
  if n =? 5 then 500
  else if n =? 10 then 1000
  else if imod n 15 =? 0 then 2000
  else 0.

(** The points of [hitLyric] for a hit at streak [s], the beat bonus
    apart: [int(float64(basePoints) * streakMultiplier)]. *)
Definition streakPoints (s : Z) : Z :=
  int_of_float
    (PrimFloat.mul (float_of_int 100)
       (PrimFloat.add 1%float (PrimFloat.div (float_of_int s) 10%float))).

(** [check] holds of the [n] integers from [s] on. *)
Fixpoint checkRange (check : Z -> bool) (n : nat) (s : Z) : bool :=
  match n with
  | O => true
  | S n' => check s && checkRange check n' (s + 1)
  end.

(** The accuracy that [calculateAccuracy] returns once [totalLyrics] is
    set. *)
Definition accuracyOf (a : App) : float :=
  PrimFloat.mul
    (PrimFloat.div (float_of_int (hitLyrics a)) (float_of_int (totalLyrics a)))
    100%float.

(** The line reached at the position of the application, if there is one,
    has been evaluated: it is flagged as active or as hit. *)
Definition visited (a : App) : Prop :=
  forall l,
    0 <= findCurrentLyricIndex a (position a) ->
    lyricLines a !! Z.to_nat (findCurrentLyricIndex a (position a)) = Some l ->
    IsHit l = true \/ IsActive l = true.

(** The state a scoring pass leaves behind. *)
Definition settled (a : App) : Prop :=
  totalLyrics a <> 0 /\ accuracy a = accuracyOf a /\ visited a.

(** A library of two songs, the second selected. *)
Definition twoSongs : App :=
  withSongs [ mkSong "One" "Singer" "song.wav" "one.lrc" (8 * Second);
              mkSong "Two" "Singer" "song.wav" "two.lrc" (8 * Second) ]
            1 (NewApp 1).

End AppControls.

(** ** Package [lyrics]: the lyric editor *)

Module Editor.

Record LyricLine := mkLine { Time : Z; Text : string; Index : Z }.

Record LyricEditor := mkEditor { lines : list LyricLine }.

Inductive error := ErrOpen | ErrLineIndexOutOfRange.

Definition NewLyricEditor : LyricEditor := mkEditor [].

(** The lines appended by the scan loop of [LoadLyricsFromFile], one for
    each line of the file that carries a time tag. *)
Fixpoint scannedLines (index : Z) (entries : list (Z * string))
  : list LyricLine :=
  match entries with
  | [] => []
  | (time, text) :: rest =>
      mkLine time text index :: scannedLines (index + 1) rest
  end.

(** [LoadLyricsFromFile]; [scan] is what the file gives: [None] when it
    cannot be opened, else the time and text of its tagged lines. *)
Definition LoadLyricsFromFile (scan : option (list (Z * string)))
    (le : LyricEditor) : LyricEditor * option error :=
  match scan with
  | None => (le, Some ErrOpen)
  | Some entries => (mkEditor (scannedLines 0 entries), None)
  end.

Definition AddLyricLine (time : Z) (text : string) (le : LyricEditor)
  : LyricEditor :=
  mkEditor (lines le ++ [mkLine time text (Z.of_nat (length (lines le)))]).

Definition UpdateLyricLine (index : Z) (time : Z) (text : string)
    (le : LyricEditor) : LyricEditor * option error :=
  if (index <? 0) || (index >=? Z.of_nat (length (lines le)))
  then (le, Some ErrLineIndexOutOfRange)
  else
    (mkEditor (alter (fun l => mkLine time text (Index l)) (Z.to_nat index)
                     (lines le)),
     None).

(** The loop [for i := index; i < len(le.lines); i++] of
    [DeleteLyricLine]; [pos] is the position of the head of [rest]. *)
Fixpoint renumber (index : Z) (pos : Z) (rest : list LyricLine)
  : list LyricLine :=
  match rest with
  | [] => []
  | l :: rest =>
      (if index <=? pos then mkLine (Time l) (Text l) pos else l)
      :: renumber index (pos + 1) rest
  end.

(** [DeleteLyricLine], as seen through the editor; the slice is cut in
    place. *)
Definition DeleteLyricLine (index : Z) (le : LyricEditor)
  : LyricEditor * option error :=
  if (index <? 0) || (index >=? Z.of_nat (length (lines le)))
  then (le, Some ErrLineIndexOutOfRange)
  else
    let kept :=
      take (Z.to_nat index) (lines le)
      ++ drop (Z.to_nat (index + 1)) (lines le) in
    (mkEditor (renumber index 0 kept), None).

Definition GetLyricsLines (le : LyricEditor) : list LyricLine := lines le.

(** The calls that edit the lines, and a run of them; a call that returns
    an error leaves the editor to the next call as it is. *)
Inductive edit :=
| Load (scan : option (list (Z * string)))
| Add (time : Z) (text : string)
| Update (index : Z) (time : Z) (text : string)
| Delete (index : Z).

Definition apply (e : edit) (le : LyricEditor) : LyricEditor :=
  match e with
  | Load scan => fst (LoadLyricsFromFile scan le)
  | Add time text => AddLyricLine time text le
  | Update index time text => fst (UpdateLyricLine index time text le)
  | Delete index => fst (DeleteLyricLine index le)
  end.

Definition run (edits : list edit) (le : LyricEditor) : LyricEditor :=
  foldl (fun le e => apply e le) le edits.

(** Every line carries its position in the list as [Index]. *)
Definition indexed (le : LyricEditor) : Prop :=
  forall (i : nat) l, lines le !! i = Some l -> Index l = Z.of_nat i.

(** The time and the text of a line. *)
Definition content (l : LyricLine) : Z * string := (Time l, Text l).

End Editor.

(** * Properties *)

(** ** Machine integers *)

Lemma wrap64_id x : inInt64 x -> wrap64 x = x.
Proof.
  unfold inInt64, minInt64, maxInt64, wrap64, wrap. intros H.
  rewrite Z.mod_small; lia.
Qed.

Lemma wrap64_range x : inInt64 (wrap64 x).
Proof.
  unfold inInt64, minInt64, maxInt64, wrap64, wrap.
  pose proof (Z.mod_pos_bound (x + 2 ^ (64 - 1)) (2 ^ 64) ltac:(lia)). lia.
Qed.

(** ** Lyric timeline *)

Module Timeline.

Import App TimelineSpec.

Lemma findIndexLoop_run lines p i acc :
  findIndexLoop lines p i acc =
    if len (leadingRun p lines) =? 0 then acc
    else i + len (leadingRun p lines) - 1.
Proof.
  revert i acc. induction lines as [|l rest IH]; intros i acc; simpl.
  - reflexivity.
  - destruct (p >=? Time l) eqn:E.
    + rewrite IH. unfold len. cbn [length]. rewrite Nat2Z.inj_succ.
      pose proof (Nat2Z.is_nonneg (length (leadingRun p rest))) as Hn.
      destruct (Z.eqb_spec (Z.of_nat (length (leadingRun p rest))) 0);
        destruct (Z.eqb_spec (Z.succ (Z.of_nat (length (leadingRun p rest)))) 0);
        lia.
    + reflexivity.
Qed.

Lemma leadingRun_length p lines :
  (length (leadingRun p lines) <= length lines)%nat.
Proof.
  induction lines as [|l rest IH]; simpl; [lia|].
  destruct (p >=? Time l); simpl; lia.
Qed.

Lemma ordered_head_le l rest :
  ordered (l :: rest) ->
  forall j l', rest !! j = Some l' -> Time l <= Time l'.
Proof.
  revert l. induction rest as [|x rest IH]; intros l [Hl Hrest] j l' Hj.
  - discriminate.
  - destruct j as [|j]; simpl in Hj.
    + injection Hj as <-. exact Hl.
    + specialize (IH x Hrest j l' Hj). lia.
Qed.

Lemma ordered_tail l rest : ordered (l :: rest) -> ordered rest.
Proof. intros [_ H]. exact H. Qed.

(** On an ordered timeline the lines that have begun are exactly those of
    the leading run. *)
Lemma ordered_leadingRun lines p :
  ordered lines ->
  forall (j : nat) l, lines !! j = Some l ->
    (Time l <= p <-> (j < length (leadingRun p lines))%nat).
Proof.
  induction lines as [|x rest IH]; intros Hord j l Hj.
  - discriminate.
  - simpl. destruct (Z.geb_spec p (Time x)) as [Hx|Hx].
    + destruct j as [|j]; simpl in Hj.
      * injection Hj as <-. simpl. split; lia.
      * specialize (IH (ordered_tail _ _ Hord) j l Hj). simpl. lia.
    + simpl. split; [|lia]. intros Hl. exfalso.
      destruct j as [|j]; simpl in Hj.
      * injection Hj as <-. lia.
      * pose proof (ordered_head_le _ _ Hord j l Hj). lia.
Qed.

Lemma lastStarted_ordered lines p i acc :
  ordered lines ->
  lastStarted lines p i acc = findIndexLoop lines p i acc.
Proof.
  revert i acc. induction lines as [|x rest IH]; intros i acc Hord; simpl.
  - reflexivity.
  - destruct (Z.geb_spec p (Time x)) as [Hx|Hx].
    + destruct (Z.leb_spec (Time x) p); [|lia].
      apply IH. exact (ordered_tail _ _ Hord).
    + destruct (Z.leb_spec (Time x) p); [lia|].
      rewrite (IH (i + 1) acc (ordered_tail _ _ Hord)).
      rewrite findIndexLoop_run.
      destruct rest as [|y rest']; [reflexivity|].
      destruct Hord as [Hxy _]. simpl.
      destruct (Z.geb_spec p (Time y)); [lia|]. reflexivity.
Qed.

(** [FindLyricAtTime] of package [player] scans in the same way: it points
    to the entry at the index that [findCurrentLyricIndex] returns, and
    is [nil] where that returns -1. *)
Lemma FindLyricAtTime_agrees lines t :
  from_option Z.of_nat (-1)
    (Lyrics.FindLyricIndexAtTime (map entryOf lines) t)
  = findIndexLoop lines t 0 (-1).
Proof.
  unfold Lyrics.FindLyricIndexAtTime.
  change 0 with (Z.of_nat 0).
  change (-1) with (from_option Z.of_nat (-1) None) at 2.
  generalize 0%nat as i. generalize (@None nat) as cur.
  induction lines as [|l rest IH]; intros cur i; [reflexivity|].
  cbn [map Lyrics.findLoop findIndexLoop entryOf Lyrics.Time].
  rewrite Z.geb_leb. destruct (Time l <=? t); [|reflexivity].
  rewrite IH. cbn [from_option]. f_equal. lia.
Qed.

(** C6, counterexample: on a timeline that is not ordered the scan stops at
    the first line that has not begun, here line 1, and returns 0, while
    the last line whose timestamp is at most 3s is line 2. *)
Lemma findCurrentLyricIndex_unordered :
  lyricLines unordered = [ mkLine 0 "A" 0 false false;
                           mkLine (5 * Second) "B" 1 false false;
                           mkLine (2 * Second) "C" 2 false false ] /\
  findCurrentLyricIndex unordered (3 * Second) = 0 /\
  ActiveIndex (lyricLines unordered) (3 * Second) = 2.
Proof. repeat split. Qed.

(** C6, as amended: on every timeline whose timestamps are non-decreasing,
    and for every position [p], [findCurrentLyricIndex] returns the index
    of the last line whose timestamp is at most [p] (the lines up to that
    index are those that have begun), or -1 when there is none; on every
    timeline it returns -1 when [p] precedes the first line's timestamp.
    For the timeline (0s,A), (3s,B), (6s,-) it returns 1 at 4s, 0 at 0.5s
    and 0 at 0. *)
Theorem findCurrentLyricIndex_last_started :
  (forall (a : App) (p : Z),
     ordered (lyricLines a) ->
     findCurrentLyricIndex a p = ActiveIndex (lyricLines a) p /\
     -1 <= findCurrentLyricIndex a p < len (lyricLines a) /\
     forall (j : nat) (l : LyricLine),
       lyricLines a !! j = Some l ->
       (Time l <= p <-> Z.of_nat j <= findCurrentLyricIndex a p)) /\
  (forall (a : App) (p : Z) first rest,
     lyricLines a = first :: rest -> p < Time first ->
     findCurrentLyricIndex a p = -1) /\
  (forall a : App,
     findCurrentLyricIndex (scenario a) (4 * Second) = 1 /\
     findCurrentLyricIndex (scenario a) (500 * Millisecond) = 0 /\
     findCurrentLyricIndex (scenario a) 0 = 0).
Proof.
  split; [|split].
  - intros a p Hord. unfold findCurrentLyricIndex, ActiveIndex.
    split; [symmetry; apply lastStarted_ordered; exact Hord|].
    rewrite findIndexLoop_run.
    pose proof (leadingRun_length p (lyricLines a)) as Hlen.
    pose proof (ordered_leadingRun _ p Hord) as Hrun.
    unfold len in *.
    destruct (Z.eqb_spec (Z.of_nat (length (leadingRun p (lyricLines a)))) 0)
      as [H0|H0].
    + split; [lia|]. intros j l Hj. rewrite (Hrun j l Hj). lia.
    + split; [lia|]. intros j l Hj. rewrite (Hrun j l Hj). lia.
  - intros a p first rest Hlines Hp. unfold findCurrentLyricIndex.
    rewrite Hlines. simpl. destruct (Z.geb_spec p (Time first)); [lia|].
    reflexivity.
  - intros a. repeat split.
Qed.

Lemma findCurrentLyricIndex_last_started_witness :
  findCurrentLyricIndex (scenario (NewApp 1)) (4 * Second) =
    ActiveIndex (lyricLines (scenario (NewApp 1))) (4 * Second).
Proof.
  destruct findCurrentLyricIndex_last_started as [H _].
  apply (H (scenario (NewApp 1)) (4 * Second)).
  simpl. unfold Second, Millisecond. lia.
Defined.

End Timeline.

(** ** Validation of LRC entries *)

Module Validation.

Import Lyrics.

Lemma validateLoop_chronological i prev rest :
  validateLoop i prev rest = None <-> chronological (prev :: rest).
Proof.
  revert i prev. induction rest as [|cur rest IH]; intros i prev.
  - simpl. tauto.
  - cbn [validateLoop]. destruct (Z.ltb_spec (Time cur) (Time prev)) as [H|H].
    + split; [discriminate|]. intros [Hle _]. lia.
    + rewrite IH. cbn [chronological]. cbn [chronological] in IH. tauto.
Qed.

(** An error of the loop names the first position whose entry is earlier
    than its predecessor. *)
Lemma validateLoop_error i prev rest e :
  validateLoop i prev rest = Some e ->
  exists (k : nat) (a b : LyricEntry),
    e = ErrNotChronological (i + Z.of_nat k) /\
    (prev :: rest) !! k = Some a /\ (prev :: rest) !! S k = Some b /\
    Time b < Time a /\ chronological (take (S k) (prev :: rest)).
Proof.
  revert i prev. induction rest as [|cur rest IH]; intros i prev.
  - discriminate.
  - cbn [validateLoop]. destruct (Z.ltb_spec (Time cur) (Time prev)) as [H|H].
    + intros [= <-]. exists 0%nat, prev, cur.
      rewrite Z.add_0_r. cbn. tauto.
    + intros Hloop. destruct (IH _ _ Hloop) as (k & a & b & -> & Ha & Hb & Hlt & Hchr).
      exists (S k), a, b.
      split; [f_equal; lia|]. split; [exact Ha|]. split; [exact Hb|].
      split; [exact Hlt|]. split; [exact H|exact Hchr].
Qed.

Lemma descent_not_chronological lyrics :
  has_descent lyrics -> chronological lyrics -> False.
Proof.
  intros (i & a & b & Ha & Hb & Hlt). revert lyrics Ha Hb.
  induction i as [|i IH]; intros [|x [|y rest]] Ha Hb Hchr;
    try discriminate.
  - injection Ha as <-. injection Hb as <-. destruct Hchr as [Hle _]. lia.
  - destruct Hchr as [_ Hchr]. exact (IH (y :: rest) Ha Hb Hchr).
Qed.

(** C9, counterexample: the empty list has no timestamp that decreases,
    and [ValidateLyrics] still rejects it, with the error "no lyrics
    found". *)
Lemma ValidateLyrics_rejects_empty :
  chronological [] /\ ValidateLyrics [] = Some ErrNoLyrics.
Proof. split; [exact I|reflexivity]. Qed.

(** C9, as amended: [ValidateLyrics] rejects the empty list with the error
    "no lyrics found"; on a list that is not empty it returns the
    chronological-order error exactly when some entry's timestamp is
    smaller than its immediate predecessor's, and it succeeds exactly when
    the timestamps are non-decreasing in order. *)
Theorem ValidateLyrics_verdict (lyrics : list LyricEntry) :
  (lyrics = [] -> ValidateLyrics lyrics = Some ErrNoLyrics) /\
  (lyrics <> [] ->
     (has_descent lyrics <->
        exists i, ValidateLyrics lyrics = Some (ErrNotChronological i)) /\
     (chronological lyrics <-> ValidateLyrics lyrics = None)).
Proof.
  split; [intros ->; reflexivity|].
  destruct lyrics as [|first rest]; [congruence|]. intros _.
  cbn [ValidateLyrics].
  pose proof (validateLoop_chronological 1 first rest) as Hchr.
  split; [|tauto]. split.
  - intros Hdesc.
    destruct (validateLoop 1 first rest) as [e|] eqn:Hloop.
    + destruct (validateLoop_error _ _ _ _ Hloop) as (k & _ & _ & -> & _).
      eauto.
    + exfalso. apply (descent_not_chronological _ Hdesc). tauto.
  - intros [i Hi].
    destruct (validateLoop_error _ _ _ _ Hi) as (k & a & b & _ & Ha & Hb & Hlt & _).
    exists k, a, b. auto.
Qed.

Lemma ValidateLyrics_verdict_witness :
  ValidateLyrics [mkEntry 0 "la"; mkEntry (5 * Second) "la la"] = None.
Proof.
  destruct (ValidateLyrics_verdict
              [mkEntry 0 "la"; mkEntry (5 * Second) "la la"]) as [_ H].
  destruct H as [_ H]; [discriminate|].
  apply H. simpl. unfold Second, Millisecond. lia.
Defined.

End Validation.

(** ** Playback controller *)

Module Controller.

Import Player ControllerSpec.

Ltac crush_consistent :=
  repeat match goal with
         | H : consistent _ |- _ => destruct H
         end;
  constructor; cbn in *; intros; try congruence; auto.

Lemma consistent_new : consistent NewAudioPlayer.
Proof. constructor; cbn; congruence. Qed.

Lemma consistent_stopInternal p : consistent p -> consistent (stopInternal p).
Proof. intros H. crush_consistent. Qed.

Lemma consistent_LoadFile env filename p p' o :
  consistent p -> LoadFile env filename p = (p', o) -> consistent p'.
Proof.
  intros H. unfold LoadFile, initializeOto.
  repeat (case_match; simplify_eq); intros; simplify_eq;
    crush_consistent.
Qed.

Lemma consistent_Play p p' o : consistent p -> Play p = (p', o) -> consistent p'.
Proof.
  intros H. unfold Play.
  repeat (case_match; simplify_eq); intros; simplify_eq; crush_consistent.
Qed.

Lemma consistent_SeekTo t p p' o :
  consistent p -> SeekTo t p = (p', o) -> consistent p'.
Proof.
  intros H. unfold SeekTo.
  repeat (case_match; simplify_eq); intros; simplify_eq; crush_consistent.
Qed.

Lemma consistent_tick elapsed p p' o :
  consistent p -> trackTick elapsed p = (p', o) -> consistent p'.
Proof.
  intros H. unfold trackTick.
  repeat (case_match; simplify_eq); intros; simplify_eq; crush_consistent.
Qed.

Lemma consistent_Pause p : consistent p -> consistent (Pause p).
Proof.
  intros H. unfold Pause. repeat case_match; crush_consistent.
Qed.

Lemma consistent_Resume p : consistent p -> consistent (Resume p).
Proof.
  intros H. unfold Resume. repeat case_match; crush_consistent.
Qed.

Lemma consistent_SetVolume v p : consistent p -> consistent (SetVolume v p).
Proof. intros H. unfold SetVolume. crush_consistent. Qed.

Lemma reachable_consistent p : reachable p -> consistent p.
Proof.
  induction 1 as [|p p' _ IH Hstep]; [exact consistent_new|].
  destruct Hstep as [env filename p p' o H _|p p' o H _|t p p' o H _
                    |elapsed p p' o H _|p|p|p|v p].
  - exact (consistent_LoadFile _ _ _ _ _ IH H).
  - exact (consistent_Play _ _ _ IH H).
  - exact (consistent_SeekTo _ _ _ _ IH H).
  - exact (consistent_tick _ _ _ _ IH H).
  - exact (consistent_Pause _ IH).
  - exact (consistent_Resume _ IH).
  - exact (consistent_stopInternal _ IH).
  - exact (consistent_SetVolume _ _ IH).
Qed.

(** *** The states of the example run *)

Lemma reachable_loaded : reachable loaded.
Proof.
  apply (reach_step NewAudioPlayer); [apply reach_new|].
  apply (step_LoadFile demoEnv "song.wav" _ _
           (snd (LoadFile demoEnv "song.wav" NewAudioPlayer))).
  - apply surjective_pairing.
  - vm_compute. discriminate.
Qed.

Lemma reachable_playing : reachable playing.
Proof.
  apply (reach_step loaded); [apply reachable_loaded|].
  apply (step_Play _ _ (snd (Play loaded))).
  - apply surjective_pairing.
  - vm_compute. discriminate.
Qed.

Lemma reachable_playingAt5s : reachable playingAt5s.
Proof.
  apply (reach_step playing); [apply reachable_playing|].
  apply (step_tick (5 * Second) _ _ (snd (trackTick (5 * Second) playing))).
  - apply surjective_pairing.
  - vm_compute. discriminate.
Qed.

Lemma reachable_pausedAt5s : reachable pausedAt5s.
Proof.
  apply (reach_step playingAt5s); [apply reachable_playingAt5s|].
  apply step_Pause.
Qed.

Lemma reachable_stopped : reachable stopped.
Proof.
  apply (reach_step playingAt5s); [apply reachable_playingAt5s|].
  apply step_Stop.
Qed.

(** *** Duration of a loaded track *)

(** A successful [LoadFile] sets the duration to the whole seconds of
    audio in the buffer; it is not negative as long as that number of
    nanoseconds fits 64 bits, which is 292 years of audio. *)
Lemma LoadFile_duration env filename (p p' : AudioPlayer) :
  LoadFile env filename p = (p', Done) ->
  0 < sampleRate p' * channels p' <= maxInt64 ->
  Z.of_nat (length (audioData p')) <= maxInt64 ->
  Z.of_nat (length (audioData p')) / 2 / (sampleRate p' * channels p')
    * Second <= maxInt64 ->
  duration p' =
    Z.of_nat (length (audioData p')) / 2 / (sampleRate p' * channels p')
    * Second /\
  0 <= duration p'.
Proof.
  unfold LoadFile, initializeOto. intros H Hsps Hlen Hdur.
  assert (Hquot : forall a b, 0 <= a -> 0 < b -> Z.quot a b = a / b)
    by (intros; apply Z.quot_div_nonneg; lia).
  assert (Hsec : 0 < Second) by (unfold Second, Millisecond; lia).
  assert (Hmax : maxInt64 = 2 ^ 63 - 1) by reflexivity.
  assert (Hmin : minInt64 = - 2 ^ 63) by reflexivity.
  repeat (case_match; simplify_eq); cbn in *.
  all: set (n := Z.of_nat (length _)) in *;
    set (sps := SampleRate (format d) * NumChannels (format d)) in *;
    assert (0 <= n) as Hn by (subst n; lia);
    assert (0 <= n / 2 <= n) as Hhalf
      by (split; [apply Z.div_pos; lia
                 |apply Z.div_le_upper_bound; lia]);
    assert (0 <= n / 2 / sps <= n / 2) as Hsecs
      by (split; [apply Z.div_pos; lia
                 |apply Z.div_le_upper_bound; nia]);
    assert (0 <= n / 2 / sps * Second) as Hprod
      by (apply Z.mul_nonneg_nonneg; lia);
    unfold idiv;
    rewrite (wrap64_id sps) by (unfold inInt64; lia);
    rewrite (Hquot n 2) by lia;
    rewrite (wrap64_id (n / 2)) by (unfold inInt64; lia);
    rewrite (Hquot (n / 2) sps) by lia;
    rewrite (wrap64_id (n / 2 / sps)) by (unfold inInt64; lia);
    rewrite (wrap64_id (n / 2 / sps * Second)) by (unfold inInt64; lia);
    split; [reflexivity|exact Hprod].
Qed.

(** *** Seeking *)

(** What [SeekTo] does once its guard is passed. *)
Lemma SeekTo_accepted p t pl ctx :
  isLoaded p = true -> player p = Some pl -> otoContext p = Some ctx ->
  exists offset,
    SeekTo t p =
      (withSession (Some (mkPlayer offset (isPlaying p))) (isPlaying p) false
         (if t <? 0 then 0 else if t >? duration p then duration p else t)
         p,
       Done).
Proof.
  intros Hl Hp Hc. unfold SeekTo. rewrite Hl, Hp. cbn. rewrite Hc.
  destruct (isPlaying p); cbn; eauto.
Qed.



(** C7, counterexample: just after [LoadFile], and after [Stop], a track
    is loaded and [SeekTo] is refused, because no session is open. *)
Lemma SeekTo_refused_when_loaded :
  isLoaded loaded = true /\
  snd (SeekTo (2 * Second) loaded) = Failed ErrSeekUnavailable /\
  isLoaded stopped = true /\
  snd (SeekTo (2 * Second) stopped) = Failed ErrSeekUnavailable.
Proof. repeat split. Qed.

(** C7, as amended: [SeekTo] is accepted from every state in which a track
    is loaded and a session is open, as it is while playing or paused; it
    returns its error, "no audio file loaded or player not available",
    exactly when no track is loaded or no session is open, and no session
    is open just after [LoadFile] and after [Stop]. *)
Theorem SeekTo_accepted_iff (p : AudioPlayer) (t : Z) :
  reachable p ->
  (isLoaded p = true /\ player p <> None <-> snd (SeekTo t p) = Done) /\
  (isLoaded p = false \/ player p = None <->
     snd (SeekTo t p) = Failed ErrSeekUnavailable) /\
  (isPlaying p = true \/ isPaused p = true -> player p <> None) /\
  (forall env filename, player (fst (LoadFile env filename p)) = None) /\
  player (Stop p) = None.
Proof.
  intros Hreach. pose proof (reachable_consistent _ Hreach) as Hcons.
  assert (Hcases :
    (isLoaded p = true /\ player p <> None /\ snd (SeekTo t p) = Done) \/
    ((isLoaded p = false \/ player p = None) /\
     snd (SeekTo t p) = Failed ErrSeekUnavailable)).
  { destruct (isLoaded p) eqn:El; destruct (player p) as [pl|] eqn:Epl.
    - left. split; [reflexivity|]. split; [discriminate|].
      assert (otoContext p <> None) as Hc
        by (apply (session_context _ Hcons); congruence).
      destruct (otoContext p) as [ctx|] eqn:Ectx; [|congruence].
      destruct (SeekTo_accepted p t pl ctx El Epl Ectx) as [offset ->].
      reflexivity.
    - right. unfold SeekTo. rewrite El, Epl. auto.
    - right. unfold SeekTo. rewrite El. auto.
    - right. unfold SeekTo. rewrite El. auto. }
  split; [|split; [|split; [|split]]].
  - destruct Hcases as [(? & ? & ?)|[[?|?] Hs]]; split; auto;
      try (rewrite Hs; discriminate); intros []; congruence.
  - destruct Hcases as [(Hl & Hp & Hs)|[? ?]]; split; auto;
      try (rewrite Hs; discriminate); intros [|]; congruence.
  - intros [H|H];
      [exact (playing_session _ Hcons H)|exact (paused_session _ Hcons H)].
  - intros env filename. unfold LoadFile, initializeOto.
    repeat case_match; simplify_eq; reflexivity.
  - reflexivity.
Qed.

Lemma SeekTo_accepted_iff_witness :
  snd (SeekTo (2 * Second) pausedAt5s) = Done.
Proof.
  apply (SeekTo_accepted_iff pausedAt5s (2 * Second)).
  - apply reachable_pausedAt5s.
  - split; [reflexivity|]. vm_compute. discriminate.
Defined.

(** *** Loading *)

(** C2, counterexample: a player at 5s of its track is asked to load a
    file that does not exist; [LoadFile] returns the error, and the player
    has been stopped: its position is 0, it no longer plays and its
    session is closed. *)
Lemma LoadFile_failure_stops_playback :
  snd (LoadFile demoEnv "missing.mp3" playingAt5s)
    = Failed (ErrFileNotFound "missing.mp3") /\
  position playingAt5s = 5 * Second /\
  position (fst (LoadFile demoEnv "missing.mp3" playingAt5s)) = 0 /\
  isPlaying playingAt5s = true /\
  isPlaying (fst (LoadFile demoEnv "missing.mp3" playingAt5s)) = false /\
  player playingAt5s = Some (mkPlayer 0 true) /\
  player (fst (LoadFile demoEnv "missing.mp3" playingAt5s)) = None.
Proof. repeat split. Qed.

(** C2, as amended: when [LoadFile] returns an error, the loaded track, the
    audio buffer, the duration, the file name, the volume and the audio
    context are those of before the call, and so are the sample rate and
    the channel count when the error is file not found, open failure,
    unsupported extension or decode failure; playback has been stopped
    (session closed, neither playing nor paused, position 0).  A track
    that was loaded and playable before remains loaded, and [Play] starts
    it again. *)
Theorem LoadFile_failure_keeps_track env filename (p p' : AudioPlayer) e :
  LoadFile env filename p = (p', Failed e) ->
  (isLoaded p' = isLoaded p /\ audioData p' = audioData p /\
   duration p' = duration p /\ currentFile p' = currentFile p /\
   volume p' = volume p /\ otoContext p' = otoContext p) /\
  (e <> ErrInitAudio ->
   sampleRate p' = sampleRate p /\ channels p' = channels p) /\
  (player p' = None /\ isPlaying p' = false /\ isPaused p' = false /\
   position p' = 0) /\
  (isLoaded p = true -> audioData p <> [] -> otoContext p <> None ->
   snd (Play p') = Done /\ isPlaying (fst (Play p')) = true /\
   audioData (fst (Play p')) = audioData p /\
   duration (fst (Play p')) = duration p).
Proof.
  unfold LoadFile, initializeOto, decode. intros H.
  assert (Hkeep :
    (isLoaded p' = isLoaded p /\ audioData p' = audioData p /\
     duration p' = duration p /\ currentFile p' = currentFile p /\
     volume p' = volume p /\ otoContext p' = otoContext p) /\
    (e <> ErrInitAudio ->
     sampleRate p' = sampleRate p /\ channels p' = channels p) /\
    (player p' = None /\ isPlaying p' = false /\ isPaused p' = false /\
     position p' = 0)).
  { repeat (case_match; simplify_eq); cbn in *; simplify_eq;
      repeat split; auto; congruence. }
  clear H. destruct Hkeep as (Hsame & Hfmt & Hstop).
  split; [exact Hsame|]. split; [exact Hfmt|]. split; [exact Hstop|].
  destruct Hsame as (Hl & Hd & Hdur & _ & _ & Hc).
  intros Hloaded Hdata Hctx. unfold Play.
  rewrite Hl, Hd, Hc, Hloaded.
  destruct (audioData p) as [|b data] eqn:Edata; [congruence|].
  destruct (otoContext p) as [ctx|] eqn:Ectx; [|congruence].
  cbn. destruct (Z.eqb_spec (Z.of_nat (S (length data))) 0) as [H0|_]; [lia|].
  cbn. repeat split; congruence.
Qed.

Lemma LoadFile_failure_keeps_track_witness :
  audioData (fst (LoadFile demoEnv "missing.mp3" playingAt5s))
    = audioData playingAt5s /\
  snd (Play (fst (LoadFile demoEnv "missing.mp3" playingAt5s))) = Done.
Proof.
  pose proof (LoadFile_failure_keeps_track demoEnv "missing.mp3" playingAt5s
                (fst (LoadFile demoEnv "missing.mp3" playingAt5s))
                (ErrFileNotFound "missing.mp3") eq_refl) as H.
  destruct H as ((_ & Hdata & _) & _ & _ & Hplay). split; [exact Hdata|].
  apply Hplay.
  - reflexivity.
  - vm_compute. discriminate.
  - vm_compute. discriminate.
Defined.

End Controller.

(** ** Pause and resume *)

Module Session.

Import Player ControllerSpec.

(** C3: for every paused player, whatever its position [p], [Resume]
    makes it play again and leaves the position at [p]; called by the
    application ([a.player.Resume()]), it changes nothing of the karaoke
    session: score, streak, accuracy, hit count and the flags of every
    line are as before. *)
Theorem Resume_keeps_position (a : App.App) (pl : AudioPlayer) :
  ControllerSpec.reachable pl -> App.player a = Some pl -> isPaused pl = true ->
  App.player (App.closeHelp true a) = Some (Resume pl) /\
  (IsPlaying (Resume pl) = true /\
   player (Resume pl) =
     (fun s => mkPlayer (readerOffset s) true) <$> player pl /\
   player (Resume pl) <> None) /\
  position (Resume pl) = position pl /\
  (App.karaokeScore (App.closeHelp true a) = App.karaokeScore a /\
   App.streak (App.closeHelp true a) = App.streak a /\
   App.accuracy (App.closeHelp true a) = App.accuracy a /\
   App.hitLyrics (App.closeHelp true a) = App.hitLyrics a /\
   App.totalLyrics (App.closeHelp true a) = App.totalLyrics a /\
   App.lyricLines (App.closeHelp true a) = App.lyricLines a).
Proof.
  intros Hreach Hpl Hpaused.
  pose proof (ControllerSpec.paused_session _
                (Controller.reachable_consistent _ Hreach) Hpaused) as Hs.
  unfold App.closeHelp. rewrite Hpl. cbn.
  unfold Resume, IsPlaying. rewrite Hpaused.
  destruct (player pl) as [s|] eqn:Es; [|congruence].
  cbn. repeat split; congruence.
Qed.

Lemma Resume_keeps_position_witness :
  position (Resume ControllerSpec.pausedAt5s) = 5 * Second.
Proof.
  assert (position ControllerSpec.pausedAt5s = 5 * Second) as <- by reflexivity.
  apply (Resume_keeps_position
           (App.withPlayer (Some ControllerSpec.pausedAt5s) (App.NewApp 1))
           ControllerSpec.pausedAt5s).
  - apply Controller.reachable_pausedAt5s.
  - reflexivity.
  - reflexivity.
Defined.

End Session.

(** ** Sample buffer *)

Module SampleBuffer.

Import Player BufferSpec.

(** *** The read loop *)

Lemma readSamples_all fuel streamer samples :
  (length streamer < fuel)%nat ->
  readSamples fuel streamer samples = Some (samples ++ streamer).
Proof.
  revert streamer samples.
  induction fuel as [|fuel IH]; intros streamer samples Hfuel; [lia|].
  destruct streamer as [|frame rest].
  - cbn. rewrite app_nil_r. reflexivity.
  - cbn [readSamples Stream]. rewrite IH.
    + rewrite <- app_assoc, take_drop. reflexivity.
    + rewrite length_drop. cbn [length] in *. lia.
Qed.

(** *** Stores *)

Lemma store_length pcmData i b pcmData' :
  store pcmData i b = Some pcmData' -> length pcmData' = length pcmData.
Proof.
  unfold store. case_match; [|discriminate].
  intros [= <-]. apply length_insert.
Qed.

Lemma store_out_of_range pcmData i b :
  Z.of_nat (length pcmData) <= i -> store pcmData i b = None.
Proof.
  intros H. unfold store.
  destruct (Z.ltb_spec i (Z.of_nat (length pcmData))); [lia|].
  rewrite andb_false_r. reflexivity.
Qed.

Lemma store_in_range pre x post i b :
  Z.of_nat (length pre) = i ->
  store (pre ++ x :: post) i b = Some (pre ++ b :: post).
Proof.
  intros <-. unfold store. rewrite length_app. cbn [length].
  destruct (Z.leb_spec 0 (Z.of_nat (length pre))); [|lia].
  destruct (Z.ltb_spec (Z.of_nat (length pre))
              (Z.of_nat (length pre + S (length post)))); [|lia].
  cbn [andb]. rewrite Nat2Z.id.
  rewrite insert_app_r_alt by lia. rewrite Nat.sub_diag. reflexivity.
Qed.

Lemma convertFrame_length vol chans i sample pcmData pcmData' :
  convertFrame vol chans i sample pcmData = Some pcmData' ->
  length pcmData' = length pcmData.
Proof.
  unfold convertFrame. intros H.
  repeat match type of H with
         | (mbind _ ?m) = Some _ =>
             let E := fresh "E" in
             destruct m eqn:E; cbn in H; [apply store_length in E|discriminate]
         | (if ?c then _ else _) = Some _ => destruct c
         | store _ _ _ = Some _ => apply store_length in H
         | Some _ = Some _ => injection H as <-
         end; congruence.
Qed.

(** *** Two channels and more: every store is in range *)

Lemma store_at pcmData i b pre x post :
  pcmData = pre ++ x :: post -> Z.of_nat (length pre) = i ->
  store pcmData i b = Some (pre ++ b :: post).
Proof. intros ->. apply store_in_range. Qed.

Lemma convertFrame_stereo vol chans i frame pre a b c d post :
  1 < chans -> Z.of_nat (length pre) = i * 4 ->
  convertFrame vol chans i frame (pre ++ a :: b :: c :: d :: post) =
    Some (pre ++ frameBytes vol frame ++ post).
Proof.
  intros Hch Hpre. unfold convertFrame. cbv zeta.
  rewrite (store_at _ _ _ pre a (b :: c :: d :: post)); [|reflexivity|lia].
  cbn [mbind option_bind].
  erewrite (store_at _ _ _ (pre ++ [_]) b (c :: d :: post));
    [|rewrite <- app_assoc; reflexivity|rewrite length_app; cbn [length]; lia].
  cbn [mbind option_bind].
  destruct (Z.gtb_spec chans 1); [|lia].
  erewrite (store_at _ _ _ ((pre ++ [_]) ++ [_]) c (d :: post));
    [|rewrite <- !app_assoc; reflexivity
     |rewrite !length_app; cbn [length]; lia].
  cbn [mbind option_bind].
  erewrite (store_at _ _ _ (((pre ++ [_]) ++ [_]) ++ [_]) d post);
    [|rewrite <- !app_assoc; reflexivity
     |rewrite !length_app; cbn [length]; lia].
  unfold frameBytes, channelBytes, littleEndian16, quantize.
  rewrite <- !app_assoc. reflexivity.
Qed.

Lemma convertLoop_stereo vol chans samples :
  1 < chans ->
  forall i pre mid post,
    Z.of_nat (length pre) = i * 4 ->
    length mid = (4 * length samples)%nat ->
    convertLoop vol chans i samples (pre ++ mid ++ post) =
      Some (pre ++ flat_map (frameBytes vol) samples ++ post).
Proof.
  intros Hch. induction samples as [|frame rest IH]; intros i pre mid post Hpre Hmid.
  - destruct mid; [reflexivity|cbn [length] in Hmid; lia].
  - destruct mid as [|a [|b [|c [|d mid]]]];
      try (cbn [length] in Hmid; lia).
    cbn [convertLoop app].
    rewrite (convertFrame_stereo vol chans i frame pre a b c d (mid ++ post))
      by assumption.
    cbn [mbind option_bind].
    rewrite (app_assoc pre (frameBytes vol frame)).
    rewrite (IH (i + 1) (pre ++ frameBytes vol frame) mid post).
    + cbn [flat_map]. rewrite <- !app_assoc. reflexivity.
    + rewrite length_app. cbn [frameBytes channelBytes littleEndian16 length app].
      lia.
    + cbn [length] in Hmid. lia.
Qed.

Lemma Build_stereo frames vol :
  Build frames 2 vol = flat_map (frameBytes vol) frames.
Proof.
  unfold Build. induction frames as [|frame rest IH]; [reflexivity|].
  cbn [flat_map]. rewrite IH. f_equal.
Qed.

(** With two channels or more no store leaves the buffer, and the bytes of
    the frames are laid out four per frame from the start of the buffer;
    what follows them keeps the zeros of [make]. *)
Lemma convertToRawPCM_in_range (p : AudioPlayer) streamer :
  2 <= channels p ->
  Z.of_nat (length streamer) * 2 * channels p <= maxInt64 ->
  convertToRawPCM p streamer =
    Some (flat_map (frameBytes (volume p)) streamer ++
          replicate (Z.to_nat (Z.of_nat (length streamer)
                               * (2 * channels p - 4))) 0).
Proof.
  intros Hch Hbound. unfold convertToRawPCM.
  rewrite readSamples_all by lia. cbn [mbind option_bind app].
  rewrite wrap64_id by (unfold inInt64, minInt64, maxInt64 in *; lia).
  unfold makeBytes.
  destruct (Z.ltb_spec (Z.of_nat (length streamer) * 2 * channels p) 0); [lia|].
  cbn [mbind option_bind].
  assert (0 <= Z.of_nat (length streamer) * (2 * channels p - 4)) as Hrest
    by (apply Z.mul_nonneg_nonneg; lia).
  replace (Z.of_nat (length streamer) * 2 * channels p)
    with (Z.of_nat (4 * length streamer)
          + Z.of_nat (length streamer) * (2 * channels p - 4))
    by (rewrite Nat2Z.inj_mul; ring).
  rewrite Z2Nat.inj_add, Nat2Z.id by lia.
  rewrite replicate_add.
  apply (convertLoop_stereo (volume p) (channels p) streamer ltac:(lia) 0 []).
  - reflexivity.
  - apply length_replicate.
Qed.

(** The build on a player with two channels is the build of the
    specification. *)
Lemma convertToRawPCM_stereo (p : AudioPlayer) streamer :
  channels p = 2 ->
  Z.of_nat (length streamer) * 4 <= maxInt64 ->
  convertToRawPCM p streamer = Some (Build streamer 2 (volume p)).
Proof.
  intros Hch Hbound. rewrite convertToRawPCM_in_range by lia.
  rewrite Hch. replace (Z.of_nat (length streamer) * (2 * 2 - 4)) with 0 by lia.
  cbn [Z.to_nat replicate]. rewrite app_nil_r, Build_stereo. reflexivity.
Qed.

(** A product inside [-1, 1] passes the clamp unchanged, whatever the
    sample was before the volume was applied. *)
Lemma clampUnit_inside (x : float) :
  PrimFloat.ltb 1%float x = false -> PrimFloat.ltb x (-1)%float = false ->
  clampUnit x = x.
Proof. intros H1 H2. unfold clampUnit. rewrite H1, H2. reflexivity. Qed.

(** A sample of 1.5 at volume 0.5 is stored as 0.75, that is 24575. *)
Lemma attenuated_sample_not_clamped :
  channelBytes 0.5%float 1.5%float = littleEndian16 24575 /\
  littleEndian16 24575 = [255; 95] /\
  channelBytes 1%float 1.5%float = littleEndian16 32767.
Proof. repeat split. Qed.

(** *** One channel: the stride of four leaves the buffer *)

Lemma convertFrame_needs vol chans i frame pcmData pcmData' :
  convertFrame vol chans i frame pcmData = Some pcmData' ->
  i * 4 + 1 < Z.of_nat (length pcmData).
Proof.
  unfold convertFrame. cbv zeta.
  destruct (store pcmData (i * 4) _) as [b1|] eqn:E1; [|discriminate].
  cbn [mbind option_bind]. apply store_length in E1.
  destruct (store b1 (i * 4 + 1) _) as [b2|] eqn:E2; [|discriminate].
  intros _. unfold store in E2.
  destruct (Z.ltb_spec (i * 4 + 1) (Z.of_nat (length b1)));
    [lia|rewrite andb_false_r in E2; discriminate].
Qed.

Lemma convertLoop_mono_panics vol samples :
  samples <> [] ->
  forall i pcmData,
    Z.of_nat (length pcmData) <= 4 * (i + Z.of_nat (length samples) - 1) + 1 ->
    convertLoop vol 1 i samples pcmData = None.
Proof.
  induction samples as [|frame rest IH]; [congruence|].
  intros _ i pcmData Hlen. cbn [convertLoop].
  destruct (convertFrame vol 1 i frame pcmData) as [pcmData'|] eqn:E;
    [|reflexivity].
  cbn [mbind option_bind].
  pose proof (convertFrame_needs _ _ _ _ _ _ E) as Hneed.
  apply convertFrame_length in E.
  destruct rest as [|frame' rest'].
  - cbn [length] in Hlen. lia.
  - apply IH; [discriminate|].
    cbn [length] in *. lia.
Qed.

(** With one channel the build panics as soon as there are two frames. *)
Lemma convertToRawPCM_mono_panics (p : AudioPlayer) streamer :
  channels p = 1 -> (2 <= length streamer)%nat ->
  Z.of_nat (length streamer) * 2 <= maxInt64 ->
  convertToRawPCM p streamer = None.
Proof.
  intros Hch Hn Hbound. unfold convertToRawPCM.
  rewrite readSamples_all by lia. cbn [mbind option_bind app].
  rewrite Hch.
  rewrite wrap64_id by (unfold inInt64, minInt64, maxInt64 in *; lia).
  unfold makeBytes.
  destruct (Z.ltb_spec (Z.of_nat (length streamer) * 2 * 1) 0); [lia|].
  cbn [mbind option_bind].
  apply convertLoop_mono_panics.
  - destruct streamer; [cbn in Hn; lia|discriminate].
  - rewrite length_replicate. lia.
Qed.

(** *** The failing inputs *)

(** C5, at the failing input: one channel and two frames.  The buffer has
    2 * 2 * 1 = 4 bytes; the first frame is stored at indices 0 and 1; the
    store of the second frame at index 1 * 4 = 4 is out of range, the
    build panics, and so does [LoadFile] on a mono file of two frames. *)
Lemma convertToRawPCM_mono_store_out_of_range :
  makeBytes (wrap64 (2 * 2 * channels mono)) = Some [0; 0; 0; 0] /\
  convertFrame (volume mono) (channels mono) 0 (0.5, 0.5)%float [0; 0; 0; 0]
    = Some [255; 63; 0; 0] /\
  store [255; 63; 0; 0] (1 * 4) (byte_of (quantize 0.25%float)) = None /\
  convertToRawPCM mono [(0.5, 0.5); (0.25, 0.25)]%float = None /\
  snd (LoadFile monoEnv "mono.wav" NewAudioPlayer) = Panicked.
Proof. repeat split. Qed.

(** C4, at the failing input: one channel, volume 0.5 and three frames.
    The build of the specification gives six bytes, two per frame; the
    program stores the second frame at indices 4 and 5 and panics on the
    third, whose store at index 8 is out of range. *)
Lemma convertToRawPCM_mono_diverges :
  Build [(1.5, 1.5); (-0.5, -0.5); (0.25, 0.25)]%float 1 0.5%float
    = [255; 95; 1; 224; 255; 15] /\
  convertLoop 0.5%float 1 0 [(1.5, 1.5); (-0.5, -0.5)]%float
              [0; 0; 0; 0; 0; 0]
    = Some [255; 95; 0; 0; 1; 224] /\
  convertToRawPCM (withVolume 0.5%float mono)
                  [(1.5, 1.5); (-0.5, -0.5); (0.25, 0.25)]%float = None.
Proof. repeat split. Qed.

End SampleBuffer.

(** ** Karaoke scoring *)

Module Scoring.

Import App SessionSpec.





(** [hitLyric] on a line that is in range and not yet hit. *)
Lemma hitLyric_effect a idx l :
  0 <= idx -> lyricLines a !! Z.to_nat idx = Some l -> IsHit l = false ->
  streak (hitLyric a idx) = wrap64 (streak a + 1) /\
  hitLyrics (hitLyric a idx) = wrap64 (hitLyrics a + 1) /\
  lyricLines (hitLyric a idx) = <[Z.to_nat idx := setHit l]> (lyricLines a).
Proof.
  intros H0 Hl Hhit. unfold hitLyric.
  pose proof (lookup_lt_Some _ _ _ Hl) as Hlt.
  destruct (Z.ltb_spec idx 0); [lia|].
  destruct (Z.geb_spec idx (len (lyricLines a))); [unfold len in *; lia|].
  cbn [orb]. rewrite Hl, Hhit. cbn. auto.
Qed.







(** *** The reset of [play] *)

Lemma unflagged_taggedLines index entries :
  unflagged (taggedLines index entries).
Proof.
  revert index. induction entries as [|[time text] rest IH]; intros index l Hl.
  - inversion Hl.
  - cbn [taggedLines] in Hl. apply elem_of_cons in Hl as [->|Hl]; [auto|].
    exact (IH _ _ Hl).
Qed.

Lemma unflagged_demoLyrics : unflagged demoLyrics.
Proof.
  intros l Hl. unfold demoLyrics in Hl.
  repeat (apply elem_of_cons in Hl as [->|Hl]; [auto|]). inversion Hl.
Qed.

Lemma unflagged_cleared lines : unflagged (map clearFlags lines).
Proof.
  induction lines as [|x rest IH]; intros l Hl; cbn [map] in Hl.
  - inversion Hl.
  - apply elem_of_cons in Hl as [->|Hl]; [auto|exact (IH _ Hl)].
Qed.

Lemma unflagged_loaded env filename a :
  unflagged (lyricLines (loadLyricsFromFile env filename a)).
Proof.
  unfold loadLyricsFromFile, loadDemoLyrics.
  repeat case_match; cbn [withLines lyricLines];
    auto using unflagged_demoLyrics, unflagged_taggedLines.
Qed.

(** What [prepareKaraoke] does to the session, by the pause flag. *)
Lemma prepareKaraoke_session env song a :
  unflagged (lyricLines (prepareKaraoke env song a)) /\
  (isPaused a = false -> fresh (prepareKaraoke env song a)) /\
  (isPaused a = true ->
   karaokeScore (prepareKaraoke env song a) = karaokeScore a /\
   streak (prepareKaraoke env song a) = streak a /\
   accuracy (prepareKaraoke env song a) = accuracy a /\
   hitLyrics (prepareKaraoke env song a) = hitLyrics a /\
   totalLyrics (prepareKaraoke env song a) = totalLyrics a).
Proof.
  unfold prepareKaraoke.
  set (b := if negb (String.eqb (LyricsPath song) EmptyString) then _ else _).
  assert (Hb : unflagged (lyricLines b) /\ isPaused b = isPaused a /\
               karaokeScore b = karaokeScore a /\ streak b = streak a /\
               accuracy b = accuracy a /\ hitLyrics b = hitLyrics a /\
               totalLyrics b = totalLyrics a).
  { subst b. destruct (negb _).
    - split; [apply unflagged_loaded|].
      unfold loadLyricsFromFile, loadDemoLyrics.
      repeat case_match; cbn; auto 10.
    - split; [|cbn; auto 10]. intros l Hl. cbn in Hl.
      apply list_elem_of_singleton in Hl as ->. auto. }
  clearbody b. destruct Hb as (Hu & Hp & Hrest). rewrite Hp.
  destruct (isPaused a); cbn [negb].
  - split; [exact Hu|]. split; [discriminate|]. intros _. tauto.
  - split; [apply unflagged_cleared|]. split; [|discriminate]. intros _.
    unfold fresh. cbn. repeat split; try reflexivity;
      apply (unflagged_cleared (lyricLines b) l); assumption.
Qed.

(** The audio part of [play] leaves the karaoke session as it is. *)
Lemma startAudio_session env song pl a s :
  startAudio env song pl a = Some s ->
  karaokeScore s = karaokeScore a /\ streak s = streak a /\
  accuracy s = accuracy a /\ hitLyrics s = hitLyrics a /\
  totalLyrics s = totalLyrics a /\ lyricLines s = lyricLines a.
Proof.
  unfold startAudio. intros H.
  repeat (case_match; simplify_eq); cbn; auto 10.
Qed.

(** [play] past its guard: the session is the one that [prepareKaraoke]
    leaves. *)
Lemma play_session env a s :
  play env a = Some s -> 0 <= currentSong a < len (songs a) ->
  exists song,
    songs a !! Z.to_nat (currentSong a) = Some song /\
    karaokeScore s = karaokeScore (prepareKaraoke env song a) /\
    streak s = streak (prepareKaraoke env song a) /\
    accuracy s = accuracy (prepareKaraoke env song a) /\
    hitLyrics s = hitLyrics (prepareKaraoke env song a) /\
    totalLyrics s = totalLyrics (prepareKaraoke env song a) /\
    lyricLines s = lyricLines (prepareKaraoke env song a).
Proof.
  intros H Hcur. unfold play in H.
  destruct (Z.ltb_spec (currentSong a) 0); [lia|].
  destruct (Z.geb_spec (currentSong a) (len (songs a))); [lia|].
  cbn [orb] in H.
  destruct (songs a !! Z.to_nat (currentSong a)) as [song|] eqn:Esong.
  - exists song. split; [reflexivity|].
    destruct (player (prepareKaraoke env song a)) as [pl|].
    + apply startAudio_session in H. exact H.
    + injection H as <-. cbn. auto 10.
  - apply lookup_ge_None in Esong. unfold len in *. lia.
Qed.

Lemma play_fresh env a s :
  play env a = Some s -> isPaused a = false ->
  0 <= currentSong a < len (songs a) -> fresh s.
Proof.
  intros H Hp Hcur.
  destruct (play_session env a s H Hcur) as (song & _ & Hk & Hs & Ha & Hh & _ & Hl).
  destruct (prepareKaraoke_session env song a) as (_ & Hfresh & _).
  specialize (Hfresh Hp). unfold fresh in *.
  rewrite Hk, Hs, Ha, Hh, Hl. exact Hfresh.
Qed.

(** A [play] from pause keeps the counters of the session, and loads the
    lines anew, so that no line is flagged after it. *)
Lemma play_from_pause env a s :
  play env a = Some s -> isPaused a = true ->
  0 <= currentSong a < len (songs a) ->
  (karaokeScore s = karaokeScore a /\ streak s = streak a /\
   accuracy s = accuracy a /\ hitLyrics s = hitLyrics a /\
   totalLyrics s = totalLyrics a) /\
  unflagged (lyricLines s).
Proof.
  intros H Hp Hcur.
  destruct (play_session env a s H Hcur)
    as (song & _ & Hk & Hs & Ha & Hh & Ht & Hl).
  destruct (prepareKaraoke_session env song a) as (Hu & _ & Hkeep).
  specialize (Hkeep Hp). rewrite Hk, Hs, Ha, Hh, Ht, Hl. tauto.
Qed.

(** *** Resuming from pause, and the streak along a session *)

(** C8, at the failing input: a song of one line is started, the line is
    hit (150 points, streak 1), and the application is paused at 2s.  The
    [play] that resumes it keeps score, streak and hit count but loads the
    lyrics anew, so the flags of the line are cleared; the audio restarts
    at 0, and the next tick hits the same line again: two hits on one
    line, an accuracy of 200. *)
Lemma play_from_pause_clears_flags :
  play karaokeEnv ready = Some started /\
  lyricLines sung = [mkLine 0 "la la la" 0 true true] /\
  (karaokeScore sung, streak sung, hitLyrics sung) = (150, 1, 1) /\
  (isPaused paused, position paused) = (true, 2 * Second) /\
  play karaokeEnv paused = Some resumed /\
  (karaokeScore resumed, streak resumed, hitLyrics resumed) = (150, 1, 1) /\
  lyricLines resumed = [mkLine 0 "la la la" 0 false false] /\
  Player.position <$> player resumed = Some 0 /\
  (hitLyrics sungAgain, totalLyrics sungAgain) = (2, 1) /\
  accuracy sungAgain = 200%float.
Proof. repeat (split; [vm_compute; reflexivity|]). vm_compute. reflexivity. Qed.



End Scoring.

(** ** Playback controller: further properties *)

Module ControllerFacts.

Import Player ControllerSpec ControllerInvariants.

Ltac crush_fed :=
  repeat match goal with
         | H : fed _ |- _ => destruct H
         end;
  constructor; cbn in *; intros; simplify_eq; cbn in *;
  try congruence; eauto.

Lemma fed_new : fed NewAudioPlayer.
Proof. constructor; cbn; congruence. Qed.

Lemma fed_LoadFile env filename p p' o :
  fed p -> LoadFile env filename p = (p', o) -> fed p'.
Proof.
  intros H. unfold LoadFile, initializeOto.
  repeat (case_match; simplify_eq); intros; simplify_eq; crush_fed.
Qed.

Lemma fed_Play p p' o : fed p -> Play p = (p', o) -> fed p'.
Proof.
  intros H. unfold Play.
  repeat (case_match; simplify_eq); intros; simplify_eq; crush_fed.
Qed.

Lemma fed_SeekTo t p p' o : fed p -> SeekTo t p = (p', o) -> fed p'.
Proof.
  intros H. unfold SeekTo.
  repeat (case_match; simplify_eq); intros; simplify_eq; crush_fed.
Qed.

Lemma fed_tick elapsed p p' o : fed p -> trackTick elapsed p = (p', o) -> fed p'.
Proof.
  intros H. unfold trackTick.
  repeat (case_match; simplify_eq); intros; simplify_eq; crush_fed.
Qed.

Lemma fed_Pause p : fed p -> fed (Pause p).
Proof. intros H. unfold Pause. repeat case_match; crush_fed. Qed.

Lemma fed_Resume p : fed p -> fed (Resume p).
Proof. intros H. unfold Resume. repeat case_match; crush_fed. Qed.

Lemma reachable_fed p : reachable p -> fed p.
Proof.
  induction 1 as [|p p' _ IH Hstep]; [exact fed_new|].
  destruct Hstep as [env filename p p' o H _|p p' o H _|t p p' o H _
                    |elapsed p p' o H _|p|p|p|v p].
  - exact (fed_LoadFile _ _ _ _ _ IH H).
  - exact (fed_Play _ _ _ IH H).
  - exact (fed_SeekTo _ _ _ _ IH H).
  - exact (fed_tick _ _ _ _ IH H).
  - exact (fed_Pause _ IH).
  - exact (fed_Resume _ IH).
  - unfold Stop, stopInternal. crush_fed.
  - unfold SetVolume. crush_fed.
Qed.

Lemma Resume_Pause (p : AudioPlayer) :
  reachable p -> isPlaying p = true -> Resume (Pause p) = p.
Proof.
  intros Hreach Hflag.
  pose proof (Controller.reachable_consistent _ Hreach) as Hc.
  pose proof (reachable_fed _ Hreach) as Hf.
  pose proof (playing_session _ Hc Hflag) as Hs.
  pose proof (playing_not_paused _ Hc Hflag) as Hp.
  destruct (player p) as [[offset fd]|] eqn:Es; [|congruence].
  pose proof (playing_fed _ Hf _ Es Hflag) as Hfd. cbn in Hfd. subst fd.
  unfold Pause. rewrite Es, Hflag. unfold Resume. cbn.
  clear Hreach Hc Hf Hs. destruct p. cbn in *. subst. reflexivity.
Qed.

Lemma Pause_Resume (p : AudioPlayer) :
  reachable p -> isPaused p = true -> Pause (Resume p) = p.
Proof.
  intros Hreach Hflag.
  pose proof (Controller.reachable_consistent _ Hreach) as Hc.
  pose proof (reachable_fed _ Hreach) as Hf.
  pose proof (paused_session _ Hc Hflag) as Hs.
  assert (Hp : isPlaying p = false).
  { destruct (isPlaying p) eqn:E; [|reflexivity].
    pose proof (playing_not_paused _ Hc E). congruence. }
  destruct (player p) as [[offset fd]|] eqn:Es; [|congruence].
  pose proof (paused_unfed _ Hf _ Es Hflag) as Hfd. cbn in Hfd. subst fd.
  unfold Resume. rewrite Es, Hflag. unfold Pause. cbn.
  clear Hreach Hc Hf Hs. destruct p. cbn in *. subst. reflexivity.
Qed.

(** X1: pausing a playing player and resuming it gives back the very state
    it had, and so does resuming a paused player and pausing it again. *)
Theorem Pause_Resume_round_trip (p : AudioPlayer) :
  reachable p ->
  (isPlaying p = true -> Resume (Pause p) = p) /\
  (isPaused p = true -> Pause (Resume p) = p).
Proof.
  intros Hreach. split.
  - apply Resume_Pause, Hreach.
  - apply Pause_Resume, Hreach.
Qed.

Lemma Pause_Resume_round_trip_witness :
  Resume (Pause playingAt5s) = playingAt5s.
Proof.
  apply (Pause_Resume_round_trip playingAt5s).
  - apply Controller.reachable_playingAt5s.
  - reflexivity.
Defined.

Lemma Play_succeeds (p : AudioPlayer) :
  isLoaded p = true -> audioData p <> [] -> otoContext p <> None ->
  snd (Play p) = Done.
Proof.
  intros Hl Hd Hc. unfold Play. rewrite Hl. cbn [negb orb].
  destruct (audioData p) as [|b data]; [congruence|].
  replace (Z.of_nat (length (b :: data)) =? 0) with false
    by (symmetry; apply Z.eqb_neq; cbn [length]; lia).
  destruct (otoContext p); [reflexivity|congruence].
Qed.

(** X2: [Play] never panics.  It succeeds exactly when a track with a
    buffer that is not empty is loaded and the audio context exists; when
    it fails the player is left as it was; when it succeeds the track is
    the same and the player plays it from position 0 in a new session. *)
Theorem Play_outcome (p : AudioPlayer) :
  (snd (Play p) = Done <->
     isLoaded p = true /\ audioData p <> [] /\ otoContext p <> None) /\
  (snd (Play p) = Failed ErrNoAudioLoaded <->
     isLoaded p = false \/ audioData p = []) /\
  (forall e, snd (Play p) = Failed e -> fst (Play p) = p) /\
  (snd (Play p) = Done ->
     player (fst (Play p)) = Some (mkPlayer 0 true) /\
     IsPlaying (fst (Play p)) = true /\ position (fst (Play p)) = 0 /\
     sameTrack p (fst (Play p))) /\
  (snd (Play p) = Panicked -> False).
Proof.
  unfold Play, IsPlaying, sameTrack.
  destruct (isLoaded p) eqn:El; cbn [negb orb];
    [destruct (audioData p) as [|b data] eqn:Ed;
       [|replace (Z.of_nat (length (b :: data)) =? 0) with false
           by (symmetry; apply Z.eqb_neq; cbn [length]; lia);
         destruct (otoContext p) as [ctx|] eqn:Ec]|];
    cbn; intuition (try congruence; try discriminate; eauto).
Qed.

(** X3: [SeekTo] leaves the player as it was when it returns its error.
    When it succeeds, a playing player goes on playing from the new
    position with the device fed, and the track is unchanged; a paused
    player does not stay paused: it is left neither playing nor paused, so
    that [Resume] has no effect on it any more. *)
Theorem SeekTo_disposition (p : AudioPlayer) (t : Z) :
  reachable p ->
  (forall e, snd (SeekTo t p) = Failed e -> fst (SeekTo t p) = p) /\
  (snd (SeekTo t p) = Done ->
     isPlaying (fst (SeekTo t p)) = isPlaying p /\
     isPaused (fst (SeekTo t p)) = false /\
     feeding <$> player (fst (SeekTo t p)) = Some (isPlaying p) /\
     sameTrack p (fst (SeekTo t p)) /\
     (isPaused p = true ->
        IsPlaying (fst (SeekTo t p)) = false /\
        Resume (fst (SeekTo t p)) = fst (SeekTo t p))).
Proof.
  intros Hreach. pose proof (Controller.reachable_consistent _ Hreach) as Hc.
  destruct (isLoaded p) eqn:El; [destruct (player p) as [s|] eqn:Es|].
  - assert (otoContext p <> None) as Hctx
      by (apply (session_context _ Hc); congruence).
    destruct (otoContext p) as [ctx|] eqn:Ec; [|congruence].
    destruct (Controller.SeekTo_accepted p t s ctx El Es Ec) as [offset ->].
    cbn. split; [discriminate|]. intros _.
    unfold sameTrack, IsPlaying, Resume. cbn.
    repeat split; auto.
    + destruct (isPlaying p) eqn:Ep; [|reflexivity].
      pose proof (playing_not_paused _ Hc Ep). congruence.
  - unfold SeekTo. rewrite El, Es. cbn. split; [auto|discriminate].
  - unfold SeekTo. rewrite El. cbn. split; [auto|discriminate].
Qed.

Lemma SeekTo_disposition_witness :
  isPaused (fst (SeekTo (2 * Second) pausedAt5s)) = false /\
  Resume (fst (SeekTo (2 * Second) pausedAt5s))
    = fst (SeekTo (2 * Second) pausedAt5s).
Proof.
  destruct (SeekTo_disposition pausedAt5s (2 * Second)
              Controller.reachable_pausedAt5s) as [_ H].
  destruct H as (_ & Hp & _ & _ & Hr); [vm_compute; reflexivity|].
  split; [exact Hp|]. apply Hr. reflexivity.
Defined.

(** *** Volume *)





(** *** The audio context *)

(** X5: the audio context is created at most once: once it exists, no
    operation of the player replaces it, so that it keeps the format of
    the first file that was loaded. *)
Theorem context_never_replaced (p p' : AudioPlayer) ctx :
  step p p' -> otoContext p = Some ctx -> otoContext p' = Some ctx.
Proof.
  intros [env filename q q' o H _|q q' o H _|t q q' o H _
         |elapsed q q' o H _|q|q|q|v q] Hctx.
  - revert H. unfold LoadFile, initializeOto.
    repeat (case_match; simplify_eq); cbn in *; intros; simplify_eq;
      cbn; congruence.
  - revert H. unfold Play.
    repeat (case_match; simplify_eq); intros; simplify_eq; cbn; congruence.
  - revert H. unfold SeekTo.
    repeat (case_match; simplify_eq); intros; simplify_eq; cbn; congruence.
  - revert H. unfold trackTick.
    repeat (case_match; simplify_eq); intros; simplify_eq; cbn; congruence.
  - unfold Pause. repeat case_match; cbn; congruence.
  - unfold Resume. repeat case_match; cbn; congruence.
  - exact Hctx.
  - exact Hctx.
Qed.

Lemma context_never_replaced_witness :
  otoContext (fst (LoadFile otherEnv "other.wav" stopped))
    = Some (mkContext 1 2).
Proof.
  apply (context_never_replaced stopped).
  - apply (step_LoadFile otherEnv "other.wav" _ _
             (snd (LoadFile otherEnv "other.wav" stopped))).
    + apply surjective_pairing.
    + vm_compute. discriminate.
  - reflexivity.
Defined.

(** *** Loading *)

Lemma convertLoop_length vol chans samples :
  forall i pcmData pcmData',
    convertLoop vol chans i samples pcmData = Some pcmData' ->
    length pcmData' = length pcmData.
Proof.
  induction samples as [|frame rest IH]; intros i pcmData pcmData' H.
  - injection H as <-. reflexivity.
  - cbn [convertLoop] in H.
    destruct (convertFrame vol chans i frame pcmData) as [mid|] eqn:E;
      [|discriminate].
    cbn [mbind option_bind] in H.
    rewrite (IH _ _ _ H). exact (SampleBuffer.convertFrame_length _ _ _ _ _ _ E).
Qed.

(** Whenever the build of the sample buffer returns, the buffer has two
    bytes per channel and frame. *)
Lemma convertToRawPCM_size (p : AudioPlayer) streamer pcmData :
  convertToRawPCM p streamer = Some pcmData ->
  inInt64 (Z.of_nat (length streamer) * 2 * channels p) ->
  Z.of_nat (length pcmData) = Z.of_nat (length streamer) * 2 * channels p.
Proof.
  unfold convertToRawPCM. intros H Hbound.
  rewrite SampleBuffer.readSamples_all in H by lia.
  cbn [mbind option_bind app] in H.
  rewrite wrap64_id in H by exact Hbound.
  unfold makeBytes in H.
  destruct (Z.ltb_spec (Z.of_nat (length streamer) * 2 * channels p) 0);
    [discriminate|].
  cbn [mbind option_bind] in H.
  rewrite (convertLoop_length _ _ _ _ _ _ H), length_replicate. lia.
Qed.

Lemma LoadFile_done env filename (p p' : AudioPlayer) :
  LoadFile env filename p = (p', Done) ->
  (isLoaded p' = true /\ currentFile p' = filename /\ volume p' = volume p) /\
  (player p' = None /\ isPlaying p' = false /\ isPaused p' = false /\
   position p' = 0) /\
  (exists d,
     decode env (ToLower (Ext filename)) <$> openFile env filename
       = Some (inr d) /\
     sampleRate p' = SampleRate (format d) /\
     channels p' = NumChannels (format d) /\
     convertToRawPCM p' (frames d) = Some (audioData p')) /\
  otoContext p' <> None.
Proof.
  unfold LoadFile, initializeOto. intros H.
  repeat (case_match; simplify_eq); cbn in *;
    (split; [auto|]); (split; [auto|]);
    (split; [eexists; repeat split; eauto|]); congruence.
Qed.

(** X6: a successful [LoadFile] leaves the named file loaded, with the
    format of the decoder and the buffer built from its frames, and the
    player stopped at position 0 with no session; if the buffer is not
    empty, the [Play] that follows succeeds. *)
Theorem LoadFile_then_Play env filename (p p' : AudioPlayer) :
  LoadFile env filename p = (p', Done) ->
  (isLoaded p' = true /\ currentFile p' = filename /\ volume p' = volume p) /\
  (player p' = None /\ isPlaying p' = false /\ isPaused p' = false /\
   position p' = 0) /\
  (exists d,
     decode env (ToLower (Ext filename)) <$> openFile env filename
       = Some (inr d) /\
     sampleRate p' = SampleRate (format d) /\
     channels p' = NumChannels (format d) /\
     convertToRawPCM p' (frames d) = Some (audioData p')) /\
  otoContext p' <> None /\
  (audioData p' <> [] -> snd (Play p') = Done).
Proof.
  intros H. destruct (LoadFile_done _ _ _ _ H) as (H1 & H2 & H3 & H4).
  split; [exact H1|]. split; [exact H2|]. split; [exact H3|].
  split; [exact H4|]. intros Hdata.
  apply Play_succeeds; [apply H1|exact Hdata|exact H4].
Qed.

Lemma LoadFile_then_Play_witness : snd (Play loaded) = Done.
Proof.
  apply (LoadFile_then_Play demoEnv "song.wav" NewAudioPlayer loaded).
  - vm_compute. reflexivity.
  - vm_compute. discriminate.
Defined.

(** X7: for a file in stereo, a successful [LoadFile] sets the duration
    to the whole seconds of audio, frames / sample rate, the fraction of a
    second dropped (the sizes are those of a track that fits 64 bits). *)
Theorem LoadFile_stereo_duration env filename (p p' : AudioPlayer) d :
  LoadFile env filename p = (p', Done) ->
  decode env (ToLower (Ext filename)) <$> openFile env filename
    = Some (inr d) ->
  NumChannels (format d) = 2 ->
  0 < SampleRate (format d) * 2 <= maxInt64 ->
  Z.of_nat (length (frames d)) * 4 <= maxInt64 ->
  Z.of_nat (length (frames d)) / SampleRate (format d) * Second
    <= maxInt64 ->
  duration p' =
    Z.of_nat (length (frames d)) / SampleRate (format d) * Second.
Proof.
  intros Hload Hdec Hch Hrate Hlen Hdur.
  destruct (LoadFile_done _ _ _ _ Hload)
    as (_ & _ & (d' & Hdec' & Hr & Hc & Hbuf) & _).
  rewrite Hdec in Hdec'. injection Hdec' as <-.
  assert (Hmax : maxInt64 = 2 ^ 63 - 1) by reflexivity.
  assert (Hmin : minInt64 = - 2 ^ 63) by reflexivity.
  pose proof (convertToRawPCM_size _ _ _ Hbuf) as Hsize.
  rewrite Hc, Hch in Hsize.
  specialize (Hsize ltac:(unfold inInt64; lia)).
  assert (Hsecs :
    Z.of_nat (length (audioData p')) / 2 / (sampleRate p' * channels p')
    = Z.of_nat (length (frames d)) / SampleRate (format d)).
  { rewrite Hsize, Hr, Hc, Hch.
    replace (Z.of_nat (length (frames d)) * 2 * 2)
      with (Z.of_nat (length (frames d)) * 2 * 2) by reflexivity.
    rewrite Z.div_mul by lia.
    rewrite (Z.mul_comm (Z.of_nat (length (frames d))) 2).
    rewrite (Z.mul_comm (SampleRate (format d)) 2).
    apply Z.div_mul_cancel_l; lia. }
  destruct (Controller.LoadFile_duration _ _ _ _ Hload) as [Hd _].
  - rewrite Hr, Hc, Hch. exact Hrate.
  - lia.
  - rewrite Hsecs. exact Hdur.
  - rewrite Hd, Hsecs. reflexivity.
Qed.

Lemma LoadFile_stereo_duration_witness : duration loaded = 8 / 1 * Second.
Proof.
  apply (LoadFile_stereo_duration demoEnv "song.wav" NewAudioPlayer loaded
           (mkDecoded demoFrames (mkFormat 1 2))).
  - vm_compute. reflexivity.
  - vm_compute. reflexivity.
  - reflexivity.
  - vm_compute. split; [reflexivity|discriminate].
  - vm_compute. discriminate.
  - vm_compute. discriminate.
Defined.

(** *** The position tracker *)

(** X8: a tick of the tracker changes nothing while the player is stopped
    or paused; while it plays, the tick sets the position to the smaller
    of the elapsed time and the duration, never beyond the duration, and
    the player stops playing exactly when the elapsed time has reached the
    duration; the track is never touched. *)
Theorem trackTick_position (elapsed : Z) (p : AudioPlayer) :
  (isPlaying p = false \/ isPaused p = true ->
   trackTick elapsed p = (p, Done)) /\
  (isPlaying p = true /\ isPaused p = false ->
   position (fst (trackTick elapsed p)) = Z.min elapsed (duration p) /\
   (isPlaying (fst (trackTick elapsed p)) = false <-> duration p <= elapsed) /\
   isPaused (fst (trackTick elapsed p)) = false /\
   player (fst (trackTick elapsed p)) = player p) /\
  sameTrack p (fst (trackTick elapsed p)).
Proof.
  unfold trackTick, sameTrack.
  destruct (isPlaying p) eqn:Ep; destruct (isPaused p) eqn:Eq; cbn [negb orb].
  - cbn. intuition congruence.
  - cbn. destruct (Z.geb_spec elapsed (duration p));
      destruct (playbackDoneClosed p); cbn;
      (split; [intros [|]; discriminate|]);
      (split; [|auto 10]); intros _; rewrite ?Ep;
      repeat split; auto; try lia; try discriminate.
  - cbn. intuition congruence.
  - cbn. intuition congruence.
Qed.

End ControllerFacts.

(** ** LRC entries: further properties *)

Module LyricsFacts.

Import Lyrics LyricsSpec.

Lemma findLoop_begun lyrics t i current :
  findLoop lyrics t i current =
    match length (begun t lyrics) with
    | O => current
    | S k => Some (i + k)%nat
    end.
Proof.
  revert i current. induction lyrics as [|e rest IH]; intros i current.
  - reflexivity.
  - cbn [findLoop begun]. destruct (Time e <=? t); [|reflexivity].
    rewrite IH. cbn [length].
    destruct (length (begun t rest)); f_equal; lia.
Qed.

Lemma begun_lookup lyrics t (j : nat) e :
  begun t lyrics !! j = Some e -> lyrics !! j = Some e /\ Time e <= t.
Proof.
  revert j. induction lyrics as [|x rest IH]; intros j; [discriminate|].
  cbn [begun]. destruct (Z.leb_spec (Time x) t); [|discriminate].
  destruct j as [|j]; cbn.
  - intros [= <-]. auto.
  - apply IH.
Qed.

Lemma begun_stops lyrics t e :
  lyrics !! length (begun t lyrics) = Some e -> t < Time e.
Proof.
  induction lyrics as [|x rest IH]; [discriminate|].
  cbn [begun]. destruct (Z.leb_spec (Time x) t).
  - cbn. exact IH.
  - cbn. intros [= <-]. assumption.
Qed.

(** X9: on every list, [FindLyricAtTime] returns [nil] exactly when the
    list is empty or its first entry is later than the time asked for;
    otherwise it points to an entry that is not later than that time, all
    entries before it are not later either, and the entry that follows it,
    if any, is later. *)
Theorem FindLyricAtTime_found (lyrics : list LyricEntry) (t : Z) :
  (FindLyricAtTime lyrics t = None <->
     lyrics = [] \/ exists e rest, lyrics = e :: rest /\ t < Time e) /\
  (forall i : nat,
     FindLyricIndexAtTime lyrics t = Some i ->
     (exists e, lyrics !! i = Some e /\ FindLyricAtTime lyrics t = Some e /\
                Time e <= t) /\
     (forall (j : nat) e', (j <= i)%nat -> lyrics !! j = Some e' ->
                           Time e' <= t) /\
     (forall e', lyrics !! S i = Some e' -> t < Time e')).
Proof.
  unfold FindLyricAtTime, FindLyricIndexAtTime.
  rewrite findLoop_begun.
  destruct (length (begun t lyrics)) as [|k] eqn:Ek.
  - split; [|discriminate]. cbn. split; [|reflexivity]. intros _.
    destruct lyrics as [|e rest]; [auto|]. right. exists e, rest.
    split; [reflexivity|]. apply (begun_stops (e :: rest) t). rewrite Ek.
    reflexivity.
  - assert (Hin : forall j : nat, (j <= k)%nat ->
                  exists e, begun t lyrics !! j = Some e).
    { intros j Hj. apply lookup_lt_is_Some. lia. }
    split.
    + cbn. destruct (Hin k ltac:(lia)) as [e He].
      destruct (begun_lookup _ _ _ _ He) as [Hl _]. rewrite Hl.
      split; [discriminate|]. intros [->|(x & rest & -> & Hx)].
      * discriminate.
      * cbn [begun] in Ek. destruct (Z.leb_spec (Time x) t); [lia|].
        discriminate.
    + intros i [= <-]. cbn [Nat.add]. split; [|split].
      * destruct (Hin k ltac:(lia)) as [e He].
        destruct (begun_lookup _ _ _ _ He) as [Hl Ht].
        exists e. cbn. rewrite Hl. auto.
      * intros j e' Hj Hl. destruct (Hin j Hj) as [e He].
        destruct (begun_lookup _ _ _ _ He) as [Hl' Ht]. congruence.
      * intros e' Hl. apply (begun_stops lyrics t). rewrite Ek. exact Hl.
Qed.

Lemma chronological_head e rest :
  chronological (e :: rest) ->
  forall (j : nat) e', rest !! j = Some e' -> Time e <= Time e'.
Proof.
  revert e. induction rest as [|x rest IH]; intros e [He Hrest] j e' Hj.
  - discriminate.
  - destruct j as [|j]; cbn in Hj.
    + injection Hj as <-. exact He.
    + specialize (IH x Hrest j e' Hj). lia.
Qed.

Lemma chronological_begun lyrics t :
  chronological lyrics ->
  forall (j : nat) e, lyrics !! j = Some e ->
    (Time e <= t <-> (j < length (begun t lyrics))%nat).
Proof.
  induction lyrics as [|x rest IH]; intros Hchr j e Hj; [discriminate|].
  cbn [begun]. destruct (Z.leb_spec (Time x) t) as [Hx|Hx].
  - destruct j as [|j]; cbn in Hj.
    + injection Hj as <-. cbn [length]. split; lia.
    + destruct Hchr as [_ Hchr]. specialize (IH Hchr j e Hj).
      cbn [length]. lia.
  - cbn [length]. split; [|lia]. intros He. exfalso.
    destruct j as [|j]; cbn in Hj.
    + injection Hj as <-. lia.
    + pose proof (chronological_head _ _ Hchr j e Hj). lia.
Qed.

(** X10: on a list that [ValidateLyrics] accepts, [FindLyricAtTime] finds
    the last entry whose time is at most the time asked for: the entries
    that are not later than that time are exactly those up to the one it
    points to, and it returns [nil] exactly when every entry is later. *)
Theorem FindLyricAtTime_validated (lyrics : list LyricEntry) (t : Z) :
  ValidateLyrics lyrics = None ->
  (FindLyricAtTime lyrics t = None <->
     forall (j : nat) e, lyrics !! j = Some e -> t < Time e) /\
  (forall i : nat,
     FindLyricIndexAtTime lyrics t = Some i ->
     forall (j : nat) e, lyrics !! j = Some e ->
                         (Time e <= t <-> (j <= i)%nat)).
Proof.
  intros Hvalid.
  assert (Hchr : chronological lyrics).
  { destruct lyrics as [|first rest]; [discriminate|].
    apply (Validation.validateLoop_chronological 1). exact Hvalid. }
  pose proof (chronological_begun lyrics t Hchr) as Hrun.
  unfold FindLyricAtTime, FindLyricIndexAtTime.
  rewrite findLoop_begun.
  destruct (length (begun t lyrics)) as [|k] eqn:Ek.
  - split; [|discriminate]. cbn. split; [|reflexivity]. intros _ j e Hj.
    pose proof (Hrun j e Hj). lia.
  - destruct (lookup_lt_is_Some_2 (begun t lyrics) k ltac:(lia)) as [e He].
    destruct (begun_lookup _ _ _ _ He) as [Hl Ht].
    split.
    + cbn. rewrite Hl. split; [discriminate|].
      intros Hall. specialize (Hall _ _ Hl). lia.
    + intros i [= <-] j e' Hj. rewrite (Hrun j e' Hj). cbn [Nat.add]. lia.
Qed.

Lemma FindLyricAtTime_validated_witness :
  Time (mkEntry (5 * Second) "la la") <= 3 * Second <-> (1 <= 0)%nat.
Proof.
  destruct (FindLyricAtTime_validated
              [mkEntry 0 "la"; mkEntry (5 * Second) "la la"] (3 * Second))
    as [_ H]; [reflexivity|].
  apply (H 0%nat eq_refl 1%nat). reflexivity.
Defined.

(** X11: the position that [ValidateLyrics] reports is that of the first
    entry that is earlier than its predecessor: the entries before it are
    in chronological order. *)
Theorem ValidateLyrics_first_descent (lyrics : list LyricEntry) (i : Z) :
  ValidateLyrics lyrics = Some (ErrNotChronological i) ->
  1 <= i < Z.of_nat (length lyrics) /\
  (exists a b, lyrics !! (Z.to_nat i - 1)%nat = Some a /\
               lyrics !! Z.to_nat i = Some b /\ Time b < Time a) /\
  chronological (take (Z.to_nat i) lyrics).
Proof.
  destruct lyrics as [|first rest]; [discriminate|].
  cbn [ValidateLyrics]. intros H.
  destruct (Validation.validateLoop_error _ _ _ _ H)
    as (k & a & b & [= ->] & Ha & Hb & Hlt & Hchr).
  pose proof (lookup_lt_Some _ _ _ Hb) as Hlen.
  replace (Z.to_nat (1 + Z.of_nat k)) with (S k) by lia.
  replace (S k - 1)%nat with k by lia.
  split; [lia|]. split; [eauto|exact Hchr].
Qed.

Lemma ValidateLyrics_first_descent_witness :
  chronological
    (take (Z.to_nat 2)
       [mkEntry 0 "a"; mkEntry (5 * Second) "b"; mkEntry (2 * Second) "c";
        mkEntry Second "d"]).
Proof.
  apply (ValidateLyrics_first_descent
           [mkEntry 0 "a"; mkEntry (5 * Second) "b"; mkEntry (2 * Second) "c";
            mkEntry Second "d"] 2).
  reflexivity.
Defined.

End LyricsFacts.

(** ** Lyric timeline: further properties *)

Module TimelineFacts.

Import App TimelineSpec.

Lemma leadingRun_mono lines p q :
  p <= q -> (length (leadingRun p lines) <= length (leadingRun q lines))%nat.
Proof.
  intros Hpq. induction lines as [|l rest IH]; [reflexivity|].
  cbn [leadingRun].
  destruct (Z.geb_spec p (Time l)); destruct (Z.geb_spec q (Time l));
    cbn [length]; lia.
Qed.

(** X12: on every timeline, ordered or not, the active index never goes
    back when the position advances. *)
Theorem findCurrentLyricIndex_monotone (a : App) (p q : Z) :
  p <= q -> findCurrentLyricIndex a p <= findCurrentLyricIndex a q.
Proof.
  intros Hpq. unfold findCurrentLyricIndex.
  rewrite !Timeline.findIndexLoop_run.
  pose proof (leadingRun_mono (lyricLines a) p q Hpq) as Hlen. unfold len.
  destruct (Z.eqb_spec (Z.of_nat (length (leadingRun p (lyricLines a)))) 0);
    destruct (Z.eqb_spec (Z.of_nat (length (leadingRun q (lyricLines a)))) 0);
    lia.
Qed.

Lemma findCurrentLyricIndex_monotone_witness :
  findCurrentLyricIndex unordered (1 * Second)
    <= findCurrentLyricIndex unordered (7 * Second).
Proof.
  apply findCurrentLyricIndex_monotone. vm_compute. discriminate.
Defined.

End TimelineFacts.

(** ** Selection, seeking and stopping *)

Module ControlsFacts.

Import App AppControls SessionSpec.

Lemma prepareKaraoke_selection env song a :
  songs (prepareKaraoke env song a) = songs a /\
  currentSong (prepareKaraoke env song a) = currentSong a.
Proof.
  unfold prepareKaraoke, loadLyricsFromFile, loadDemoLyrics, resetKaraoke.
  repeat case_match; cbn; auto.
Qed.

Lemma play_selection env a s :
  play env a = Some s -> songs s = songs a /\ currentSong s = currentSong a.
Proof.
  unfold play. intros H.
  destruct ((currentSong a <? 0) || (currentSong a >=? len (songs a)));
    [injection H as <-; auto|].
  destruct (songs a !! Z.to_nat (currentSong a)) as [song|];
    [|injection H as <-; auto].
  destruct (prepareKaraoke_selection env song a) as [Hs Hc].
  rewrite <- Hs, <- Hc. revert H.
  generalize (prepareKaraoke env song a). intros b H.
  destruct (player b) as [pl|]; [|injection H as <-; auto].
  unfold startAudio in H.
  repeat (case_match; simplify_eq); cbn; auto.
Qed.

(** X13: in a library that is not empty, [next] selects the song after the
    current one, the first after the last, [previous] the song before it,
    the last before the first; the selection stays within the library, and
    [previous] after [next] selects the song that was selected before. *)
Theorem next_previous_round_trip env (a s s' : App) :
  0 <= currentSong a < len (songs a) -> 2 * len (songs a) <= maxInt64 ->
  next env a = Some s -> previous env s = Some s' ->
  songs s' = songs a /\
  currentSong s = (currentSong a + 1) mod len (songs a) /\
  0 <= currentSong s < len (songs a) /\
  currentSong s' = currentSong a.
Proof.
  intros Hcur Hmax Hnext Hprev.
  assert (Hm : maxInt64 = 2 ^ 63 - 1) by reflexivity.
  unfold next in Hnext. unfold previous in Hprev.
  destruct (Z.eqb_spec (len (songs a)) 0) as [H0|_]; [lia|].
  apply play_selection in Hnext as [Hs Hc]. cbn in Hs, Hc.
  rewrite Hs in Hprev.
  destruct (Z.eqb_spec (len (songs a)) 0) as [H0|_]; [lia|].
  apply play_selection in Hprev as [Hs' Hc']. cbn in Hs', Hc'.
  unfold imod in *.
  rewrite wrap64_id in Hc by (unfold inInt64, minInt64; lia).
  rewrite Z.rem_mod_nonneg in Hc by lia.
  pose proof (Z.mod_pos_bound (currentSong a + 1) (len (songs a)) ltac:(lia))
    as Hnextrange.
  rewrite Hc in Hc'.
  rewrite (wrap64_id (_ - 1)) in Hc' by (unfold inInt64, minInt64; lia).
  rewrite wrap64_id in Hc' by (unfold inInt64, minInt64; lia).
  rewrite Z.rem_mod_nonneg in Hc' by lia.
  split; [congruence|]. split; [exact Hc|]. split; [lia|].
  rewrite Hc'.
  destruct (Z.eq_dec (currentSong a + 1) (len (songs a))) as [Hlast|Hlast].
  - rewrite Hlast, Z.mod_same by lia.
    replace (0 - 1 + len (songs a)) with (currentSong a) by lia.
    apply Z.mod_small. lia.
  - rewrite (Z.mod_small (currentSong a + 1)) by lia.
    replace (currentSong a + 1 - 1 + len (songs a))
      with (currentSong a + 1 * len (songs a)) by lia.
    rewrite Z.mod_add by lia. apply Z.mod_small. lia.
Qed.

Lemma next_previous_round_trip_witness :
  currentSong (default twoSongs (next karaokeEnv twoSongs)) = (1 + 1) mod 2.
Proof.
  apply (next_previous_round_trip karaokeEnv twoSongs
           (default twoSongs (next karaokeEnv twoSongs))
           (default twoSongs
              (previous karaokeEnv
                 (default twoSongs (next karaokeEnv twoSongs))))).
  - vm_compute. split; [discriminate|reflexivity].
  - vm_compute. discriminate.
  - vm_compute. reflexivity.
  - vm_compute. reflexivity.
Defined.

Lemma navigateUp_eq (a : App) :
  0 <= currentSong a <= maxInt64 ->
  navigateUp a
  = if currentSong a >? 0 then withCurrentSong (currentSong a - 1) a else a.
Proof.
  intros H. assert (Hm : maxInt64 = 2 ^ 63 - 1) by reflexivity.
  unfold navigateUp. destruct (Z.gtb_spec (currentSong a) 0); [|reflexivity].
  rewrite wrap64_id by (unfold inInt64, minInt64; lia). reflexivity.
Qed.

Lemma navigateDown_eq (a : App) :
  0 <= currentSong a < len (songs a) -> len (songs a) <= maxInt64 ->
  navigateDown a
  = if currentSong a <? len (songs a) - 1
    then withCurrentSong (currentSong a + 1) a else a.
Proof.
  intros H Hmax. assert (Hm : maxInt64 = 2 ^ 63 - 1) by reflexivity.
  unfold navigateDown.
  rewrite wrap64_id by (unfold inInt64, minInt64; lia).
  destruct (Z.ltb_spec (currentSong a) (len (songs a) - 1)); [|reflexivity].
  rewrite wrap64_id by (unfold inInt64, minInt64; lia). reflexivity.
Qed.

(** X14: [navigateUp] and [navigateDown] keep the selection within the
    library, stopping at its first and last song, and each undoes the
    other where it moved. *)
Theorem navigate_in_range (a : App) :
  0 <= currentSong a < len (songs a) -> len (songs a) <= maxInt64 ->
  (0 <= currentSong (navigateUp a) < len (songs (navigateUp a)) /\
   0 <= currentSong (navigateDown a) < len (songs (navigateDown a))) /\
  (currentSong a = 0 -> navigateUp a = a) /\
  (currentSong a = len (songs a) - 1 -> navigateDown a = a) /\
  (currentSong a < len (songs a) - 1 -> navigateUp (navigateDown a) = a) /\
  (0 < currentSong a -> navigateDown (navigateUp a) = a).
Proof.
  intros Hcur Hmax.
  rewrite (navigateUp_eq a), (navigateDown_eq a) by lia.
  split; [split|split; [|split; [|split]]].
  - destruct (Z.gtb_spec (currentSong a) 0); cbn; lia.
  - destruct (Z.ltb_spec (currentSong a) (len (songs a) - 1)); cbn; lia.
  - intros ->. reflexivity.
  - intros Hlast.
    destruct (Z.ltb_spec (currentSong a) (len (songs a) - 1)); [lia|].
    reflexivity.
  - intros Hlt.
    destruct (Z.ltb_spec (currentSong a) (len (songs a) - 1)); [|lia].
    rewrite navigateUp_eq by (cbn; lia).
    destruct a as [pl sg cur pg ps pos dur ld ll ks st ac tl hl bp vol].
    unfold withCurrentSong, withSongs. cbn -[Z.add Z.sub] in *.
    destruct (Z.gtb_spec (cur + 1) 0); [|lia].
    f_equal. ring.
  - intros Hgt.
    destruct (Z.gtb_spec (currentSong a) 0); [|lia].
    rewrite navigateDown_eq by (cbn; lia).
    destruct a as [pl sg cur pg ps pos dur ld ll ks st ac tl hl bp vol].
    unfold withCurrentSong, withSongs. cbn -[Z.add Z.sub len] in *.
    destruct (Z.ltb_spec (cur - 1) (len sg - 1)); [|lia].
    f_equal. ring.
Qed.

Lemma navigate_in_range_witness : navigateDown (navigateUp twoSongs) = twoSongs.
Proof.
  apply (navigate_in_range twoSongs).
  - vm_compute. split; [discriminate|reflexivity].
  - vm_compute. discriminate.
  - reflexivity.
Defined.

Lemma clearFlags_twice lines :
  map clearFlags (map clearFlags lines) = map clearFlags lines.
Proof. induction lines as [|l rest IH]; cbn; [|rewrite IH]; reflexivity. Qed.

Lemma clearFlags_unflagged lines l :
  l ∈ map clearFlags lines -> IsHit l = false /\ IsActive l = false.
Proof.
  induction lines as [|x rest IH]; cbn; intros H.
  - inversion H.
  - inversion H; subst; [cbn; auto|auto].
Qed.

(** X15: [stop] ends the session whatever the state was: nothing plays and
    nothing is paused, the position and every counter are 0, no line is
    flagged, and the lines keep their times and texts.  A second [stop]
    changes nothing, and a [play] after [stop] starts a new session, never
    a resumed one. *)
Theorem stop_ends_session env (a : App) :
  (isPlaying (stop a) = false /\ isPaused (stop a) = false /\
   position (stop a) = 0 /\ beatPhase (stop a) = 0 /\
   totalLyrics (stop a) = 0 /\ fresh (stop a)) /\
  (map Time (lyricLines (stop a)) = map Time (lyricLines a) /\
   map Text (lyricLines (stop a)) = map Text (lyricLines a)) /\
  stop (stop a) = stop a /\
  (forall s, 0 <= currentSong a < len (songs a) ->
             play env (stop a) = Some s -> fresh s).
Proof.
  split; [|split; [|split]].
  - unfold stop, fresh. destruct (player a); cbn;
      repeat (split; [reflexivity|]);
      intros l H; apply (clearFlags_unflagged _ _ H).
  - unfold stop. destruct (player a); cbn;
      (split; induction (lyricLines a) as [|l rest IH]; cbn;
       [reflexivity|rewrite IH; reflexivity| reflexivity
       |rewrite IH; reflexivity]).
  - unfold stop. destruct a as [[pl|] sg cur pg ps pos dur ld ll ks st ac tl hl bp vol];
      cbn; rewrite clearFlags_twice; reflexivity.
  - intros s Hcur Hplay.
    apply (Scoring.play_fresh env (stop a) s Hplay).
    + unfold stop. destruct (player a); reflexivity.
    + unfold stop. destruct (player a); exact Hcur.
Qed.

Lemma updateScore_frame draw a :
  isPlaying (updateScore draw a) = isPlaying a /\
  position (updateScore draw a) = position a /\
  duration (updateScore draw a) = duration a /\
  player (updateScore draw a) = player a.
Proof.
  unfold updateScore, updateKaraokeScoring, calculateAccuracy, hitLyric.
  repeat case_match; simplify_eq; cbn; auto.
Qed.



(** X17: while a song of the library plays on a player with a loaded
    track, an open session and a context, [seekForward] is carried out
    without panic: the application moves to the target clamped to the
    duration it shows, the player to the target clamped to the duration
    of its track, and both keep playing. *)
Theorem seekForward_accepted (seekStep : Z) (draw : float) (a : App)
    pl ses ctx :
  0 <= currentSong a < len (songs a) -> isPlaying a = true ->
  player a = Some pl -> Player.isLoaded pl = true ->
  Player.player pl = Some ses -> Player.otoContext pl = Some ctx ->
  0 <= position a <= duration a -> 0 <= seekStep ->
  duration a + seekStep * Second <= maxInt64 ->
  exists s pl',
    seekForward seekStep draw a = Some s /\ player s = Some pl' /\
    isPlaying s = true /\
    position s = Z.min (position a + seekStep * Second) (duration a) /\
    Player.position pl'
    = Z.min (position s) (Player.duration pl) /\
    Player.isPlaying pl' = Player.isPlaying pl.
Proof.
  intros Hcur Hplay Hpl Hl Hs Hc Hpos Hstep Hmax.
  assert (Hm : maxInt64 = 2 ^ 63 - 1) by reflexivity.
  assert (Hsec : Second = 1000000000) by reflexivity.
  unfold seekForward.
  destruct (Z.geb_spec (currentSong a) 0); [|lia].
  destruct (Z.ltb_spec (currentSong a) (len (songs a))); [|lia].
  rewrite Hplay. cbn [andb].
  rewrite (wrap64_id (seekStep * Second)) by (unfold inInt64, minInt64; lia).
  rewrite wrap64_id by (unfold inInt64, minInt64; lia).
  set (target := if position a + seekStep * Second >? duration a
                 then duration a else position a + seekStep * Second).
  assert (Ht : target = Z.min (position a + seekStep * Second) (duration a)).
  { unfold target.
    destruct (Z.gtb_spec (position a + seekStep * Second) (duration a)); lia. }
  clearbody target.
  unfold seekPlayer. rewrite Hpl.
  destruct (Controller.SeekTo_accepted pl target ses ctx Hl Hs Hc)
    as [offset ->].
  eexists _, _. split; [reflexivity|].
  match goal with
  | |- context [updateScore draw ?x] =>
      destruct (updateScore_frame draw x) as (-> & -> & _ & ->)
  end.
  cbn [player isPlaying position withPlayback withPlayer].
  split; [reflexivity|]. split; [exact Hplay|]. split; [exact Ht|].
  cbn [Player.position Player.isPlaying Player.withSession].
  split; [|reflexivity].
  destruct (Z.ltb_spec target 0); [lia|].
  destruct (Z.gtb_spec target (Player.duration pl)); lia.
Qed.

Lemma seekForward_accepted_witness :
  exists s pl',
    seekForward 3 0 started = Some s /\ player s = Some pl' /\
    isPlaying s = true /\
    position s = Z.min (position started + 3 * Second) (duration started) /\
    Player.position pl'
    = Z.min (position s) (Player.duration (ControllerSpec.playing)) /\
    Player.isPlaying pl' = Player.isPlaying ControllerSpec.playing.
Proof.
  apply (seekForward_accepted 3 0 started ControllerSpec.playing
           (Player.mkPlayer 0 true) (Player.mkContext 1 2)).
  - vm_compute. split; [discriminate|reflexivity].
  - vm_compute. reflexivity.
  - vm_compute. reflexivity.
  - vm_compute. reflexivity.
  - vm_compute. reflexivity.
  - vm_compute. reflexivity.
  - vm_compute. split; discriminate.
  - lia.
  - vm_compute. discriminate.
Defined.

Lemma taggedLines_indexed index entries (i : nat) l :
  taggedLines index entries !! i = Some l ->
  Index l = index + Z.of_nat i /\ IsHit l = false /\ IsActive l = false.
Proof.
  revert index i. induction entries as [|[time text] rest IH];
    intros index i H; [discriminate|].
  destruct i as [|i]; cbn in H.
  - injection H as <-. cbn. split; [lia|auto].
  - destruct (IH _ _ H) as (Hi & Hh & Ha). split; [lia|auto].
Qed.

Lemma demoLyrics_indexed (i : nat) l :
  demoLyrics !! i = Some l ->
  Index l = Z.of_nat i /\ IsHit l = false /\ IsActive l = false.
Proof.
  intros H.
  do 20 (destruct i as [|i];
         [injection H as <-; vm_compute; auto|cbn in H]).
  discriminate.
Qed.

Lemma loadLyricsFromFile_lines env filename a :
  lyricLines (loadLyricsFromFile env filename a) <> [] /\
  forall (i : nat) l,
    lyricLines (loadLyricsFromFile env filename a) !! i = Some l ->
    Index l = Z.of_nat i /\ IsHit l = false /\ IsActive l = false.
Proof.
  unfold loadLyricsFromFile, loadDemoLyrics.
  destruct (readLRC env filename) as [entries|]; cbn.
  - destruct entries as [|[time text] rest].
    + cbn. split; [discriminate|apply demoLyrics_indexed].
    + unfold len. cbn [taggedLines length].
      destruct (Z.eqb_spec (Z.of_nat (S (length (taggedLines (0 + 1) rest)))) 0);
        [lia|].
      cbn. split; [discriminate|].
      intros i l H.
      destruct (taggedLines_indexed 0 ((time, text) :: rest) i l H)
        as (Hi & Hh & Ha).
      split; [lia|auto].
  - split; [discriminate|apply demoLyrics_indexed].
Qed.

(** X18: the timeline that [loadLyricsFromFile] leaves is never empty: a
    file that cannot be read, or has no line, gives the demo lyrics; and
    each of its lines carries its own position in the list as [Index] and
    no flag.  The same holds after [prepareKaraoke], also for a song
    without lyrics file. *)
Theorem loaded_timeline_indexed env filename song (a : App) :
  (lyricLines (loadLyricsFromFile env filename a) <> [] /\
   forall (i : nat) l,
     lyricLines (loadLyricsFromFile env filename a) !! i = Some l ->
     Index l = Z.of_nat i /\ IsHit l = false /\ IsActive l = false) /\
  (lyricLines (prepareKaraoke env song a) <> [] /\
   forall (i : nat) l,
     lyricLines (prepareKaraoke env song a) !! i = Some l ->
     Index l = Z.of_nat i /\ IsHit l = false /\ IsActive l = false).
Proof.
  split; [apply loadLyricsFromFile_lines|].
  unfold prepareKaraoke.
  set (b := if negb (LyricsPath song =? "")%string
            then loadLyricsFromFile env (LyricsPath song) a
            else withLines [noLyricsLine] a).
  assert (Hb : lyricLines b <> [] /\
               forall (i : nat) l, lyricLines b !! i = Some l ->
                 Index l = Z.of_nat i /\ IsHit l = false /\ IsActive l = false).
  { unfold b. destruct (negb (LyricsPath song =? "")%string).
    - apply loadLyricsFromFile_lines.
    - cbn. split; [discriminate|].
      intros [|i] l H; [injection H as <-; cbn; auto|discriminate]. }
  clearbody b. destruct Hb as [Hne Hidx].
  destruct (negb (isPaused b)); [|split; assumption].
  unfold resetKaraoke. cbn. split.
  - destruct (lyricLines b); [congruence|discriminate].
  - intros i l H. rewrite list_lookup_fmap in H.
    destruct (lyricLines b !! i) as [x|] eqn:Ex; [|discriminate].
    injection H as <-. cbn. destruct (Hidx i x Ex) as [Hi _]. auto.
Qed.



End ControlsFacts.

(** ** Scoring passes *)

Module ScoringFacts.

Import App AppControls SessionSpec.

Lemma findIndexLoop_times lines lines' p i acc :
  map Time lines = map Time lines' ->
  findIndexLoop lines p i acc = findIndexLoop lines' p i acc.
Proof.
  revert lines' i acc.
  induction lines as [|l rest IH]; intros [|l' rest'] i acc H;
    try discriminate; [reflexivity|].
  cbn in H. injection H as Ht Hrest. cbn. rewrite Ht.
  destruct (p >=? Time l'); [apply IH, Hrest|reflexivity].
Qed.

Lemma times_insert lines (i : nat) l l' :
  lines !! i = Some l -> Time l' = Time l ->
  map Time (<[i := l']> lines) = map Time lines.
Proof.
  revert i. induction lines as [|x rest IH]; intros i H Ht; [discriminate|].
  destruct i as [|i]; cbn in H.
  - injection H as ->. cbn. rewrite Ht. reflexivity.
  - change (<[S i := l']> (x :: rest)) with (x :: <[i := l']> rest).
    cbn [map]. f_equal. apply IH; assumption.
Qed.

Lemma times_length (lines lines' : list LyricLine) :
  map Time lines = map Time lines' -> length lines = length lines'.
Proof.
  intros H. rewrite <- (length_map Time lines), H. apply length_map.
Qed.

Lemma hitLyric_position a idx : position (hitLyric a idx) = position a.
Proof. unfold hitLyric. repeat case_match; reflexivity. Qed.

Lemma calculateAccuracy_settles a :
  len (lyricLines a) <> 0 ->
  totalLyrics (fst (calculateAccuracy a)) <> 0 /\
  snd (calculateAccuracy a) = accuracyOf (fst (calculateAccuracy a)) /\
  lyricLines (fst (calculateAccuracy a)) = lyricLines a /\
  position (fst (calculateAccuracy a)) = position a.
Proof.
  intros Hlen. unfold calculateAccuracy.
  destruct (Z.eqb_spec (totalLyrics a) 0) as [E|E].
  - cbn [totalLyrics withScore].
    destruct (Z.eqb_spec (len (lyricLines a)) 0) as [E'|E']; [contradiction|].
    cbn. auto.
  - destruct (Z.eqb_spec (totalLyrics a) 0) as [E'|E']; [contradiction|].
    cbn. auto.
Qed.

(** The evaluation step of [updateKaraokeScoring] leaves the line reached
    flagged, and the times and the position as they were. *)
Lemma evaluate_visits (a : App) (hit : bool) (i : nat) lyric :
  lyricLines a !! i = Some lyric -> IsHit lyric = false ->
  let marked := withLines (<[i := setActive lyric]> (lyricLines a)) a in
  let a' := if hit then hitLyric marked (Z.of_nat i) else marked in
  position a' = position a /\
  map Time (lyricLines a') = map Time (lyricLines a) /\
  exists l, lyricLines a' !! i = Some l /\
            (IsHit l = true \/ IsActive l = true).
Proof.
  intros Hi Hhit marked a'.
  pose proof (lookup_lt_Some _ _ _ Hi) as Hlt.
  assert (Hm : lyricLines marked !! i = Some (setActive lyric))
    by (apply list_lookup_insert_eq; exact Hlt).
  assert (Ht : map Time (lyricLines marked) = map Time (lyricLines a))
    by (apply (times_insert _ _ lyric); [exact Hi|reflexivity]).
  destruct hit; subst a'.
  - assert (Hm' : lyricLines marked !! Z.to_nat (Z.of_nat i)
                  = Some (setActive lyric)) by (rewrite Nat2Z.id; exact Hm).
    destruct (Scoring.hitLyric_effect marked (Z.of_nat i) (setActive lyric)
                ltac:(lia) Hm' Hhit) as (_ & _ & El).
    rewrite Nat2Z.id in El.
    split; [rewrite hitLyric_position; reflexivity|]. split.
    + rewrite El, <- Ht.
      apply (times_insert _ _ (setActive lyric)); [exact Hm|reflexivity].
    + exists (setHit (setActive lyric)). split; [|left; reflexivity].
      rewrite El. apply list_lookup_insert_eq.
      apply (lookup_lt_Some _ _ _ Hm).
  - split; [reflexivity|]. split; [exact Ht|].
    exists (setActive lyric). split; [exact Hm|right; reflexivity].
Qed.

Lemma settled_fixed draw a : settled a -> updateKaraokeScoring draw a = a.
Proof.
  intros (Htotal & Hacc & Hvis). unfold updateKaraokeScoring.
  destruct (len (lyricLines a) =? 0); [reflexivity|].
  match goal with
  | |- context [calculateAccuracy ?x] =>
      assert (H1 : x = a); [|rewrite H1]
  end.
  { destruct ((findCurrentLyricIndex a (position a) >=? 0)
              && (findCurrentLyricIndex a (position a) <? len (lyricLines a)))
      eqn:Erange; [|reflexivity].
    apply andb_prop in Erange as [Hge _]. apply Z.geb_le in Hge.
    destruct (lyricLines a !! Z.to_nat (findCurrentLyricIndex a (position a)))
      as [lyric|] eqn:El; [|reflexivity].
    destruct (Hvis lyric Hge El) as [-> | ->]; [reflexivity|].
    destruct (IsHit lyric); reflexivity. }
  unfold calculateAccuracy.
  destruct (Z.eqb_spec (totalLyrics a) 0) as [E|E]; [contradiction|].
  destruct (Z.eqb_spec (totalLyrics a) 0) as [E'|E']; [contradiction|].
  fold (accuracyOf a). rewrite <- Hacc. destruct a; reflexivity.
Qed.

Lemma updateKaraokeScoring_settles draw a :
  len (lyricLines a) <> 0 -> settled (updateKaraokeScoring draw a).
Proof.
  intros Hlen. unfold updateKaraokeScoring.
  destruct (Z.eqb_spec (len (lyricLines a)) 0) as [E|_]; [contradiction|].
  set (idx := findCurrentLyricIndex a (position a)).
  match goal with
  | |- context [calculateAccuracy ?x] =>
      set (a1 := x);
      assert (H1 : position a1 = position a /\
                   map Time (lyricLines a1) = map Time (lyricLines a) /\
                   forall l, 0 <= idx ->
                             lyricLines a1 !! Z.to_nat idx = Some l ->
                             IsHit l = true \/ IsActive l = true)
  end.
  { subst a1.
    destruct ((idx >=? 0) && (idx <? len (lyricLines a))) eqn:Erange.
    - apply andb_prop in Erange as [Hge _]. apply Z.geb_le in Hge.
      destruct (lyricLines a !! Z.to_nat idx) as [lyric|] eqn:El.
      + destruct (IsHit lyric) eqn:Ehit.
        { cbn. split; [reflexivity|]. split; [reflexivity|].
          intros l _ Hl. rewrite El in Hl. injection Hl as <-. auto. }
        destruct (IsActive lyric) eqn:Eact.
        { cbn. split; [reflexivity|]. split; [reflexivity|].
          intros l _ Hl. rewrite El in Hl. injection Hl as <-. auto. }
        cbn [negb andb].
        pose proof (evaluate_visits a
                      (PrimFloat.ltb draw
                         (calculateHitChance
                            (withLines
                               (<[Z.to_nat idx := setActive lyric]>
                                  (lyricLines a)) a) idx))
                      _ lyric El Ehit) as H.
        rewrite Z2Nat.id in H by exact Hge.
        destruct H as (Hp & Ht & l' & Hl' & Hflag).
        split; [exact Hp|]. split; [exact Ht|].
        intros l _ Hl. rewrite Hl' in Hl. injection Hl as <-. exact Hflag.
      + split; [reflexivity|]. split; [reflexivity|].
        intros l _ Hl. rewrite El in Hl. discriminate.
    - split; [reflexivity|]. split; [reflexivity|].
      intros l Hge Hl. pose proof (lookup_lt_Some _ _ _ Hl) as Hlt.
      apply andb_false_iff in Erange as [H|H].
      + destruct (Z.geb_spec idx 0); [discriminate|lia].
      + apply Z.ltb_ge in H. unfold len in H. lia. }
  clearbody a1. destruct H1 as (Hp & Ht & Hflag).
  assert (Hlen1 : len (lyricLines a1) <> 0).
  { unfold len in *. rewrite (times_length _ _ Ht). exact Hlen. }
  destruct (calculateAccuracy_settles a1 Hlen1) as (Htotal & Hacc & Hl & Hpos).
  destruct (calculateAccuracy a1) as [a2 acc]. cbn [fst snd] in *.
  split; [exact Htotal|]. split; [exact Hacc|].
  unfold visited, findCurrentLyricIndex.
  cbn [withScore lyricLines position].
  rewrite Hl, Hpos, Hp.
  rewrite (findIndexLoop_times _ _ _ _ _ Ht).
  exact Hflag.
Qed.

Lemma updateKaraokeScoring_twice d1 d2 a :
  updateKaraokeScoring d2 (updateKaraokeScoring d1 a)
  = updateKaraokeScoring d1 a.
Proof.
  destruct (Z.eq_dec (len (lyricLines a)) 0) as [E|E].
  - unfold updateKaraokeScoring at 2. rewrite E. cbn.
    unfold updateKaraokeScoring. rewrite E. reflexivity.
  - apply settled_fixed, updateKaraokeScoring_settles, E.
Qed.

Lemma updateKaraokeScoring_frame draw a :
  isPlaying (updateKaraokeScoring draw a) = isPlaying a /\
  position (updateKaraokeScoring draw a) = position a /\
  beatPhase (updateKaraokeScoring draw a) = beatPhase a.
Proof.
  unfold updateKaraokeScoring, calculateAccuracy, hitLyric.
  repeat case_match; simplify_eq; cbn; auto.
Qed.

(** X20: a scoring pass is idempotent: a second [updateKaraokeScoring] at
    the same position changes nothing whatever its random draw, since the
    line reached carries a flag after the first; and so does a second
    redraw tick that reads the same position from the player. *)
Theorem scoring_pass_idempotent (pos : Z) (d1 d2 : float) (a : App) :
  updateKaraokeScoring d2 (updateKaraokeScoring d1 a)
  = updateKaraokeScoring d1 a /\
  scoringTick pos d2 (scoringTick pos d1 a) = scoringTick pos d1 a.
Proof.
  split; [apply updateKaraokeScoring_twice|].
  assert (Ht : position (scoringTick pos d1 a) = pos /\
               (isPlaying (scoringTick pos d1 a) = true ->
                beatPhase (scoringTick pos d1 a)
                = imod (idiv (Milliseconds pos) 250) 4 /\
                updateKaraokeScoring d2 (scoringTick pos d1 a)
                = scoringTick pos d1 a)).
  { unfold scoringTick, updateVisualizer, updateScore.
    cbn [isPlaying position withPlayback withBeatPhase].
    destruct (isPlaying a) eqn:Eplay;
      cbn [isPlaying position withPlayback withBeatPhase].
    - match goal with
      | |- context [updateKaraokeScoring d1 ?x] =>
          destruct (updateKaraokeScoring_frame d1 x) as (Fp & Fpos & Fb)
      end.
      split; [exact Fpos|]. intros _.
      split; [exact Fb|apply updateKaraokeScoring_twice].
    - split; [reflexivity|discriminate]. }
  set (t := scoringTick pos d1 a) in *. clearbody t.
  destruct Ht as [Hpos Hplay].
  unfold scoringTick, updateVisualizer, updateScore.
  cbn [isPlaying position withPlayback withBeatPhase].
  destruct (isPlaying t) eqn:Eplay;
    cbn [isPlaying position withPlayback withBeatPhase].
  - destruct (Hplay eq_refl) as [Hbeat Hfix].
    assert (Heta : withBeatPhase (imod (idiv (Milliseconds pos) 250) 4)
                     (withPlayback true (isPaused t) pos (duration t)
                        (isLoading t) t) = t).
    { clear Hfix Hplay. destruct t. cbn in *. subst. reflexivity. }
    rewrite Heta. exact Hfix.
  - clear Hplay. destruct t. cbn in *. subst. reflexivity.
Qed.

Lemma checkRange_spec check (n : nat) (s x : Z) :
  checkRange check n s = true -> s <= x < s + Z.of_nat n -> check x = true.
Proof.
  revert s. induction n as [|n IH]; intros s H Hx; [lia|].
  cbn [checkRange] in H. apply andb_prop in H as [Hs Hrest].
  destruct (Z.eq_dec x s) as [->|Hne]; [exact Hs|].
  apply (IH (s + 1) Hrest). lia.
Qed.

Lemma streakPoints_bounds (s : Z) :
  0 <= s < 10000 ->
  100 + 10 * s - 1 <= streakPoints s <= 100 + 10 * s /\
  (s < 13 -> streakPoints s = 100 + 10 * s).
Proof.
  intros Hs.
  assert (H : checkRange
                (fun s => (100 + 10 * s - 1 <=? streakPoints s)
                          && (streakPoints s <=? 100 + 10 * s)
                          && ((13 <=? s) || (streakPoints s =? 100 + 10 * s)))
                (Z.to_nat 10000) 0 = true) by (vm_compute; reflexivity).
  apply (checkRange_spec _ _ _ s) in H; [|rewrite Z2Nat.id; lia].
  apply andb_prop in H as [H H3]. apply andb_prop in H as [H1 H2].
  apply Z.leb_le in H1. apply Z.leb_le in H2.
  split; [lia|]. intros Hlt.
  apply orb_prop in H3 as [H3|H3].
  - apply Z.leb_le in H3. lia.
  - apply Z.eqb_eq in H3. exact H3.
Qed.

Lemma milestoneBonus_range n : 0 <= milestoneBonus n <= 2000.
Proof. unfold milestoneBonus. repeat case_match; lia. Qed.

(** X21: the points of a hit.  [hitLyric] on a line not yet hit adds to the
    score the streak points, 50 on the beat, and the bonus of the streak
    reached: 500 at 5, 1000 at 10, 2000 at each multiple of 15.  The
    streak points, computed in floating point and truncated, are
    [100 + 10 * streak] up to a streak of 12 and never more than 1 below
    it; at a streak of 13 they are 229. *)
Theorem hitLyric_points (a : App) (idx : Z) l :
  0 <= idx -> lyricLines a !! Z.to_nat idx = Some l -> IsHit l = false ->
  0 <= streak a < 10000 -> 0 <= karaokeScore a <= maxInt64 - 200000 ->
  karaokeScore (hitLyric a idx)
  = karaokeScore a + streakPoints (streak a)
    + (if beatPhase a =? 0 then 50 else 0) + milestoneBonus (streak a + 1) /\
  100 + 10 * streak a - 1 <= streakPoints (streak a) <= 100 + 10 * streak a /\
  (streak a < 13 -> streakPoints (streak a) = 100 + 10 * streak a) /\
  streakPoints 13 = 229.
Proof.
  intros H0 Hl Hhit Hs Hk.
  assert (Hm : maxInt64 = 2 ^ 63 - 1) by reflexivity.
  destruct (streakPoints_bounds (streak a) Hs) as [Hb Hexact].
  split; [|split; [exact Hb|split; [exact Hexact|vm_compute; reflexivity]]].
  pose proof (lookup_lt_Some _ _ _ Hl) as Hlt.
  unfold hitLyric.
  destruct (Z.ltb_spec idx 0); [lia|].
  destruct (Z.geb_spec idx (len (lyricLines a))); [unfold len in *; lia|].
  cbn [orb]. rewrite Hl, Hhit.
  cbn [karaokeScore withScore withLines].
  fold (streakPoints (streak a)).
  set (beat := if beatPhase a =? 0 then 50 else 0).
  assert (Hbeat : 0 <= beat <= 50) by (unfold beat; case_match; lia).
  rewrite (wrap64_id (streak a + 1)) by (unfold inInt64, minInt64; lia).
  rewrite (wrap64_id (streakPoints (streak a) + beat))
    by (unfold inInt64, minInt64; lia).
  rewrite (wrap64_id (karaokeScore a + _))
    by (unfold inInt64, minInt64; lia).
  unfold milestoneBonus.
  destruct (streak a + 1 =? 5); [rewrite wrap64_id
    by (unfold inInt64, minInt64; lia); lia|].
  destruct (streak a + 1 =? 10); [rewrite wrap64_id
    by (unfold inInt64, minInt64; lia); lia|].
  destruct (imod (streak a + 1) 15 =? 0); [rewrite wrap64_id
    by (unfold inInt64, minInt64; lia); lia|].
  lia.
Qed.

Lemma hitLyric_points_witness :
  karaokeScore (hitLyric started 0)
  = karaokeScore started + streakPoints (streak started)
    + (if beatPhase started =? 0 then 50 else 0)
    + milestoneBonus (streak started + 1) /\
  100 + 10 * streak started - 1 <= streakPoints (streak started)
  <= 100 + 10 * streak started /\
  (streak started < 13 ->
   streakPoints (streak started) = 100 + 10 * streak started) /\
  streakPoints 13 = 229.
Proof.
  apply (hitLyric_points started 0 (mkLine 0 "la la la" 0 false false)).
  - lia.
  - vm_compute. reflexivity.
  - reflexivity.
  - vm_compute. split; [discriminate|reflexivity].
  - vm_compute. split; discriminate.
Defined.

End ScoringFacts.

(** ** Lyric editor *)

Module EditorFacts.

Import Editor.

Lemma renumber_lookup index pos rest (j : nat) l' :
  renumber index pos rest !! j = Some l' ->
  exists l, rest !! j = Some l /\ content l' = content l /\
            Index l' = if index <=? pos + Z.of_nat j
                       then pos + Z.of_nat j else Index l.
Proof.
  revert pos j. induction rest as [|x rest IH]; intros pos j H;
    [discriminate|].
  destruct j as [|j]; cbn in H.
  - injection H as <-. exists x. split; [reflexivity|].
    replace (pos + Z.of_nat 0) with pos by lia.
    destruct (index <=? pos); auto.
  - destruct (IH _ _ H) as (l & Hl & Hc & Hi). exists l.
    split; [exact Hl|]. split; [exact Hc|].
    replace (pos + Z.of_nat (S j)) with (pos + 1 + Z.of_nat j) by lia.
    exact Hi.
Qed.

Lemma renumber_content index pos rest :
  map content (renumber index pos rest) = map content rest.
Proof.
  revert pos. induction rest as [|x rest IH]; intros pos; [reflexivity|].
  cbn [renumber map]. rewrite IH. destruct (index <=? pos); reflexivity.
Qed.

Lemma renumber_below index pos rest :
  pos + Z.of_nat (length rest) <= index -> renumber index pos rest = rest.
Proof.
  revert pos. induction rest as [|x rest IH]; intros pos H; [reflexivity|].
  cbn [length] in H. cbn [renumber].
  destruct (Z.leb_spec index pos); [lia|].
  rewrite IH by lia. reflexivity.
Qed.

Lemma scan_indexed index entries (i : nat) l :
  scannedLines index entries !! i = Some l -> Index l = index + Z.of_nat i.
Proof.
  revert index i. induction entries as [|[time text] rest IH];
    intros index i H; [discriminate|].
  destruct i as [|i]; cbn in H.
  - injection H as <-. cbn. lia.
  - rewrite (IH _ _ H). lia.
Qed.

Lemma indexed_Load scan le :
  indexed le -> indexed (fst (LoadLyricsFromFile scan le)).
Proof.
  intros H. destruct scan as [entries|]; [|exact H].
  intros i l Hl. cbn in Hl. apply scan_indexed in Hl. lia.
Qed.

Lemma indexed_Add time text le : indexed le -> indexed (AddLyricLine time text le).
Proof.
  intros H i l Hl. unfold AddLyricLine in Hl. cbn [lines] in Hl.
  apply lookup_app_Some in Hl as [Hl|[Hge Hl]].
  - apply H, Hl.
  - destruct (i - length (lines le))%nat as [|k] eqn:Ek; [|discriminate].
    injection Hl as <-. cbn. lia.
Qed.

Lemma indexed_Update index time text le :
  indexed le -> indexed (fst (UpdateLyricLine index time text le)).
Proof.
  intros H. unfold UpdateLyricLine.
  destruct ((index <? 0) || (index >=? Z.of_nat (length (lines le))));
    [exact H|].
  intros i l Hl. cbn [fst lines] in Hl.
  destruct (Nat.eq_dec (Z.to_nat index) i) as [E|Hne].
  - rewrite E, list_lookup_alter_eq in Hl.
    destruct (lines le !! i) as [x|] eqn:Ex; cbn in Hl; [|discriminate].
    injection Hl as <-. cbn. apply H, Ex.
  - rewrite list_lookup_alter_ne in Hl by exact Hne. apply H, Hl.
Qed.

Lemma indexed_Delete index le :
  indexed le -> indexed (fst (DeleteLyricLine index le)).
Proof.
  intros H. unfold DeleteLyricLine.
  destruct (Z.ltb_spec index 0); [exact H|].
  destruct (Z.geb_spec index (Z.of_nat (length (lines le)))); [exact H|].
  intros i l Hl. cbn [orb fst lines] in Hl.
  destruct (renumber_lookup _ _ _ _ _ Hl) as (x & Hx & _ & Hi).
  rewrite Hi. destruct (Z.leb_spec index (0 + Z.of_nat i)); [lia|].
  rewrite lookup_app_l in Hx by (rewrite length_take; lia).
  rewrite lookup_take_lt in Hx by lia. apply H, Hx.
Qed.

(** X22: in the lyric editor every line carries its own position as
    [Index], whatever files were loaded and whatever lines were added,
    updated and deleted since [NewLyricEditor], and whichever of these
    calls returned an error. *)
Theorem editor_lines_indexed (edits : list edit) :
  indexed (run edits NewLyricEditor).
Proof.
  unfold run.
  assert (H : indexed NewLyricEditor) by (intros i l Hl; discriminate).
  revert H. generalize NewLyricEditor.
  induction edits as [|e edits IH]; intros le H; [exact H|].
  cbn [foldl]. apply IH.
  destruct e; cbn [apply];
    [apply indexed_Load|apply indexed_Add|apply indexed_Update
    |apply indexed_Delete]; exact H.
Qed.

(** X23: [UpdateLyricLine] and [DeleteLyricLine] return their error exactly
    for an index outside the list, and then leave the editor as it was.
    Otherwise [UpdateLyricLine] sets the time and text of that line and
    nothing else, and [DeleteLyricLine] removes that line and no other:
    the times and texts that remain are the others, in their order. *)
Theorem editor_index_checked (index time : Z) (text : string)
    (le : LyricEditor) :
  (snd (UpdateLyricLine index time text le) = None <->
     0 <= index < Z.of_nat (length (lines le))) /\
  (snd (DeleteLyricLine index le) = None <->
     0 <= index < Z.of_nat (length (lines le))) /\
  (snd (UpdateLyricLine index time text le) <> None ->
     fst (UpdateLyricLine index time text le) = le) /\
  (snd (DeleteLyricLine index le) <> None ->
     fst (DeleteLyricLine index le) = le) /\
  (0 <= index < Z.of_nat (length (lines le)) ->
     map content (lines (fst (UpdateLyricLine index time text le)))
     = <[Z.to_nat index := (time, text)]> (map content (lines le)) /\
     map Index (lines (fst (UpdateLyricLine index time text le)))
     = map Index (lines le) /\
     map content (lines (fst (DeleteLyricLine index le)))
     = delete (Z.to_nat index) (map content (lines le))).
Proof.
  unfold UpdateLyricLine, DeleteLyricLine.
  destruct (Z.ltb_spec index 0);
    [cbn; repeat split; try discriminate; try reflexivity; lia|].
  destruct (Z.geb_spec index (Z.of_nat (length (lines le))));
    [cbn; repeat split; try discriminate; try reflexivity; lia|].
  cbn [orb fst snd lines].
  split; [split; [lia|reflexivity]|]. split; [split; [lia|reflexivity]|].
  split; [congruence|]. split; [congruence|]. intros _.
  assert (Hlt : (Z.to_nat index < length (lines le))%nat) by lia.
  replace (Z.to_nat (index + 1)) with (S (Z.to_nat index)) by lia.
  generalize dependent (Z.to_nat index). clear. intros n.
  generalize (lines le). clear. intros l. revert n.
  induction l as [|x rest IH]; intros n Hlt; [cbn in Hlt; lia|].
  destruct n as [|n].
  - cbn. rewrite renumber_content. rewrite drop_0. auto.
  - cbn [length] in Hlt. destruct (IH n ltac:(lia)) as (H1 & H2 & H3).
    split; [|split].
    + cbn. f_equal. exact H1.
    + cbn. f_equal. exact H2.
    + rewrite renumber_content in *. cbn [take drop app map].
      cbn. f_equal. exact H3.
Qed.

(** X24: deleting the line that [AddLyricLine] has just appended gives
    back the editor as it was before the two calls. *)
Theorem Add_Delete_round_trip (time : Z) (text : string) (le : LyricEditor) :
  DeleteLyricLine (Z.of_nat (length (lines le))) (AddLyricLine time text le)
  = (le, None).
Proof.
  unfold DeleteLyricLine, AddLyricLine. cbn [lines].
  rewrite length_app. cbn [length].
  destruct (Z.ltb_spec (Z.of_nat (length (lines le))) 0); [lia|].
  destruct (Z.geb_spec (Z.of_nat (length (lines le)))
              (Z.of_nat (length (lines le) + 1))); [lia|].
  cbn [orb].
  replace (Z.to_nat (Z.of_nat (length (lines le)) + 1))
    with (S (length (lines le))) by lia.
  rewrite Nat2Z.id.
  rewrite take_app_length.
  rewrite drop_ge by (rewrite length_app; cbn [length]; lia).
  rewrite app_nil_r, renumber_below by lia.
  destruct le; reflexivity.
Qed.

End EditorFacts.

